(** * CounterStrikeSharp: the tick scheduler and the player-iterator natives

    A shallow embedding of [src/core/tick_scheduler.cpp] and of
    [src/scripting/natives/natives_players.cpp], followed by the properties
    of the deferred-execution scheduler ([schedule] / [getCallbacks], the
    latter being the operation the specification calls [collectDue]) and of
    the null-handle guards of the iterator natives. *)

From stdpp Require Import base list sorting gmap.
From Equations Require Import Equations.
From Equations.Prop Require Import Logic.
From Stdlib Require Import ZArith Lia.

Local Open Scope Z_scope.

(* ===================================================================== *)
(** * Part I: definitions *)
(* ===================================================================== *)

(** ** The task store

    [TickScheduler::scheduledTasks] is declared in [tick_scheduler.h]; the
    two member functions only use its [enqueue] and [try_dequeue]
    operations, which are taken here as an interface. *)

Module ConcurrentQueue.

(** Modelled from the spec: the declaration of the store type is missing
    from the sources.  The specification describes it as a queue "with no
    selective-removal primitive" holding an "unordered ... multiset" of
    tasks: insertion adds one element, a successful removal hands out one
    stored element (which one is up to the queue), and, with a single
    thread operating on it, removal fails only on the empty store.
    [contents] is the abstraction function to that multiset (a list read
    up to permutation). *)
Class Queue (T : Type) : Type := {
  queue : Type;
  empty_queue : queue;
  enqueue : T → queue → queue;
  try_dequeue : queue → option (T * queue);
  contents : queue → list T;
  contents_empty : contents empty_queue = [];
  contents_enqueue x q : contents (enqueue x q) ≡ₚ contents q ++ [x];
  try_dequeue_None q : try_dequeue q = None → contents q = [];
  try_dequeue_Some q x q' :
    try_dequeue q = Some (x, q') → contents q ≡ₚ x :: contents q'
}.
Global Arguments queue T {_}.

(** The first-in first-out queue: elements leave in the order in which
    they were inserted. *)
Definition fifo_enqueue {T : Type} (x : T) (q : list T) : list T := q ++ [x].

Definition fifo_try_dequeue {T : Type} (q : list T) : option (T * list T) :=
  match q with
  | [] => None
  | x :: q' => Some (x, q')
  end.

Definition fifo (T : Type) : Queue T.
Proof.
  refine {| queue := list T;
            empty_queue := [];
            enqueue := fifo_enqueue;
            try_dequeue := fifo_try_dequeue;
            contents := λ q, q |}.
  - reflexivity.
  - intros x q. reflexivity.
  - intros [|x q]; [reflexivity | discriminate].
  - intros [|y q] x q'; simpl; [discriminate|].
    intros [= -> ->]. reflexivity.
Defined.

End ConcurrentQueue.
Import ConcurrentQueue.

(** ** [tick_scheduler.cpp] *)

Section TickSchedulerDefs.
(** [std::function<void()>]: the scheduler stores and returns callbacks
    and never calls or compares them. *)
Context {Callback : Type}.

(** [std::pair<int, std::function<void()>>].  The tick is only ever
    compared, so the [int] is read as the integer it denotes. *)
Definition Task : Type := Z * Callback.

Context {Q : Queue Task}.

Record TickScheduler : Type := { scheduledTasks : queue Task }.

(** A freshly constructed scheduler holds an empty queue. *)
Definition TickScheduler_new : TickScheduler :=
  {| scheduledTasks := empty_queue |}.

(** [void TickScheduler::schedule(int tick, std::function<void()> callback)] *)
Definition schedule (tick : Z) (callback : Callback) (s : TickScheduler)
  : TickScheduler :=
  {| scheduledTasks := enqueue (tick, callback) (scheduledTasks s) |}.

(** The [while (scheduledTasks.try_dequeue(task))] loop of [getCallbacks],
    on the queue and the two local vectors.  Every successful
    [try_dequeue] removes an element, which is why the loop ends. *)
Equations? drain (currentTick : Z) (q : queue Task)
    (callbacksToRun : list Callback) (allTasks : list Task)
  : queue Task * list Callback * list Task
  by wf (length (contents q)) lt :=
  drain currentTick q callbacksToRun allTasks with inspect (try_dequeue q) := {
    | exist _ (Some (task, q')) Hdq =>
        if decide (task.1 ≤ currentTick)
        then drain currentTick q' (callbacksToRun ++ [task.2]) allTasks
        else drain currentTick q' callbacksToRun (allTasks ++ [task]);
    | exist _ None _ => (q, callbacksToRun, allTasks) }.
Proof.
  all: apply try_dequeue_Some in Hdq; rewrite Hdq; simpl; lia.
Qed.

(** The [for (const auto& remainingTask : allTasks)] loop. *)
Definition reinsert (allTasks : list Task) (q : queue Task) : queue Task :=
  fold_left (λ q remainingTask, enqueue remainingTask q) allTasks q.

(** [std::vector<std::function<void()>> TickScheduler::getCallbacks(int currentTick)]:
    the returned vector and the scheduler afterwards. *)
Definition getCallbacks (currentTick : Z) (s : TickScheduler)
  : list Callback * TickScheduler :=
  let '(q, callbacksToRun, allTasks) :=
    drain currentTick (scheduledTasks s) [] [] in
  (callbacksToRun, {| scheduledTasks := reinsert allTasks q |}).

(** The tasks held by a scheduler, as a multiset. *)
Definition stored (s : TickScheduler) : list Task :=
  contents (scheduledTasks s).

(** [dequeues q l q_end]: calling [try_dequeue] on [q] until it fails hands
    out the tasks [l], in this order, and leaves [q_end]. *)
Inductive dequeues : queue Task → list Task → queue Task → Prop :=
| dequeues_done q : try_dequeue q = None → dequeues q [] q
| dequeues_next q task q' l q_end :
    try_dequeue q = Some (task, q') → dequeues q' l q_end →
    dequeues q (task :: l) q_end.

(** *** Calls made by the owners of a scheduler *)

Inductive Call : Type :=
| Schedule (tick : Z) (callback : Callback)
| CollectDue (currentTick : Z).

(** Runs the calls in order; the result lists what each [CollectDue]
    returned, in call order, and the scheduler at the end. *)
Fixpoint run (calls : list Call) (s : TickScheduler)
  : list (list Callback) * TickScheduler :=
  match calls with
  | [] => ([], s)
  | Schedule tick callback :: calls' => run calls' (schedule tick callback s)
  | CollectDue currentTick :: calls' =>
      let '(out, s') := getCallbacks currentTick s in
      let '(outs, s'') := run calls' s' in
      (out :: outs, s'')
  end.

(** The tasks handed to [schedule] by a sequence of calls, in call order. *)
Fixpoint scheduled (calls : list Call) : list Task :=
  match calls with
  | [] => []
  | Schedule tick callback :: calls' => (tick, callback) :: scheduled calls'
  | CollectDue _ :: calls' => scheduled calls'
  end.

Definition schedule_task (task : Task) : Call := Schedule task.1 task.2.

End TickSchedulerDefs.

Global Arguments Task Callback : clear implicits.
Global Arguments TickScheduler Callback {Q}.
Global Arguments Call Callback : clear implicits.

(** A scheduler over the first-in first-out queue whose callbacks are told
    apart by a number, with tasks at ticks 5, 10, 10 and 15 scheduled in
    this order. *)
Definition four_tasks : TickScheduler nat (Q:=fifo (Task nat)) :=
  schedule 15 4%nat (schedule 10 3%nat (schedule 10 2%nat
    (schedule 5 1%nat TickScheduler_new))).

(** ** [natives_players.cpp] *)

Module NativesPlayers.

(** A [void*] handle as the scripting runtime passes it: an address, with
    [nullptr] the address zero. *)
Definition pointer : Type := N.
Definition nullptr : pointer := 0%N.

Section Natives.
(** [PlayerManager::ConnectedPlayerIterator] and its three member
    functions are declared in [core/managers/player_manager.h], and
    [ScriptContext::GetArgument] in the script engine; the natives are
    defined over whatever these are. *)
Context {ConnectedPlayerIterator ScriptContext : Type}.
Variable HasNext : ConnectedPlayerIterator → bool.
Variable GetCurrentSlot : ConnectedPlayerIterator → Z.
Variable MoveNext : ConnectedPlayerIterator → ConnectedPlayerIterator.
Variable GetArgument : ScriptContext → nat → pointer.
(** [globals::playerManager.GetConnectedPlayersIterator()] *)
Variable GetConnectedPlayersIterator : ConnectedPlayerIterator.

(** The iterators allocated by [new] and not yet deleted, by address. *)
Definition Heap : Type := gmap N ConnectedPlayerIterator.

(** [iterator->...]: following a pointer is defined only when it is not
    null and points to a live iterator; [None] stands for the undefined
    behaviour otherwise. *)
Definition deref (h : Heap) (iterator : pointer)
  : option ConnectedPlayerIterator :=
  if decide (iterator = nullptr) then None else h !! iterator.

(** [static void* CreateConnectedPlayersIterator(ScriptContext&)]:
    [new] returns an address that is neither null nor in use. *)
Definition CreateConnectedPlayersIterator (script_context : ScriptContext)
    (h : Heap) : pointer * Heap :=
  let iterator := fresh ({[nullptr]} ∪ dom h) in
  (iterator, <[iterator := GetConnectedPlayersIterator]> h).

(** [static bool IteratorHasNext(ScriptContext&)] *)
Definition IteratorHasNext (script_context : ScriptContext) (h : Heap)
  : option bool :=
  let iterator := GetArgument script_context 0 in
  if decide (iterator = nullptr) then Some false
  else it ← deref h iterator; Some (HasNext it).

(** [static int IteratorGetCurrentSlot(ScriptContext&)] *)
Definition IteratorGetCurrentSlot (script_context : ScriptContext)
    (h : Heap) : option Z :=
  let iterator := GetArgument script_context 0 in
  if decide (iterator = nullptr) then Some (-1)
  else it ← deref h iterator; Some (GetCurrentSlot it).

(** [static void IteratorMoveNext(ScriptContext&)]: the heap afterwards. *)
Definition IteratorMoveNext (script_context : ScriptContext) (h : Heap)
  : option Heap :=
  let iterator := GetArgument script_context 0 in
  if decide (iterator ≠ nullptr)
  then it ← deref h iterator; Some (<[iterator := MoveNext it]> h)
  else Some h.

(** [static void DestroyIterator(ScriptContext&)]: the heap afterwards. *)
Definition DestroyIterator (script_context : ScriptContext) (h : Heap)
  : option Heap :=
  let iterator := GetArgument script_context 0 in
  if decide (iterator ≠ nullptr)
  then _ ← deref h iterator; Some (delete iterator h)
  else Some h.

End Natives.

End NativesPlayers.

(** ** A second store

    A last-in first-out store also fits the queue interface: the element
    handed out is the most recently inserted one. *)
Definition lifo (T : Type) : Queue T.
Proof.
  refine {| queue := list T;
            empty_queue := [];
            enqueue := λ x q, x :: q;
            try_dequeue := fifo_try_dequeue;
            contents := λ q, q |}.
  - reflexivity.
  - intros x q. apply Permutation_cons_append.
  - intros [|x q]; [reflexivity | discriminate].
  - intros [|y q] x q'; simpl; [discriminate|].
    intros [= -> ->]. reflexivity.
Defined.

(** The tasks of [four_tasks], scheduled in the same order on a last-in
    first-out store. *)
Definition four_tasks_lifo : TickScheduler nat (Q:=lifo (Task nat)) :=
  schedule 15 4%nat (schedule 10 3%nat (schedule 10 2%nat
    (schedule 5 1%nat TickScheduler_new))).

(** ** A concrete iterator

    An iterator as the list of the slots still to visit, and a script
    context as the list of its arguments, absent ones reading as null. *)
Module SlotIterator.
Import NativesPlayers.

Definition slots_HasNext (it : list Z) : bool := bool_decide (it ≠ []).
Definition slots_GetCurrentSlot (it : list Z) : Z := default (-1) (head it).
Definition slots_MoveNext (it : list Z) : list Z := tail it.
Definition list_GetArgument (ctx : list pointer) (i : nat) : pointer :=
  default nullptr (ctx !! i).

End SlotIterator.

(** ** Producers running against the consumer

    [schedule] may be called from any thread while the simulation loop is
    inside [getCallbacks].  The queue is internally synchronised, so a run
    of the system is an interleaving of single queue operations: one
    [enqueue] for a [schedule] call, and for [getCallbacks] one
    [try_dequeue] per turn of its [while] loop and one [enqueue] per turn
    of its [for] loop.  The two vectors are local to the consumer. *)

Section InterleavingDefs.
Context {Callback : Type} {Q : Queue (Task Callback)}.

(** Where the single consumer is in [getCallbacks]: outside of it, in the
    [while] loop, or in the [for] loop with [remaining] still to visit. *)
Inductive Consumer : Type :=
| Idle
| Draining (currentTick : Z) (callbacksToRun : list Callback)
    (allTasks : list (Task Callback))
| Reinserting (currentTick : Z) (callbacksToRun : list Callback)
    (remaining : list (Task Callback)).

Record System : Type := {
  sys_scheduler : TickScheduler Callback;
  sys_consumer : Consumer
}.

Inductive Event : Type :=
| EvSchedule (tick : Z) (callback : Callback)
| EvCall (currentTick : Z)
| EvDequeue (task : Task Callback)
| EvLoopExit
| EvReinsert (task : Task Callback)
| EvReturn (callbacksToRun : list Callback).

(** One step of the system.  With [spurious] set, [try_dequeue] may also
    report failure on a store that is not empty, as a lock-free queue under
    contention is allowed to. *)
Inductive step (spurious : bool) : System → Event → System → Prop :=
| step_schedule s c tick callback :
    step spurious {| sys_scheduler := s; sys_consumer := c |}
      (EvSchedule tick callback)
      {| sys_scheduler := schedule tick callback s; sys_consumer := c |}
| step_call s currentTick :
    step spurious {| sys_scheduler := s; sys_consumer := Idle |}
      (EvCall currentTick)
      {| sys_scheduler := s; sys_consumer := Draining currentTick [] [] |}
| step_dequeue_due s currentTick callbacksToRun allTasks task q' :
    try_dequeue (scheduledTasks s) = Some (task, q') →
    task.1 ≤ currentTick →
    step spurious
      {| sys_scheduler := s;
         sys_consumer := Draining currentTick callbacksToRun allTasks |}
      (EvDequeue task)
      {| sys_scheduler := {| scheduledTasks := q' |};
         sys_consumer :=
           Draining currentTick (callbacksToRun ++ [task.2]) allTasks |}
| step_dequeue_later s currentTick callbacksToRun allTasks task q' :
    try_dequeue (scheduledTasks s) = Some (task, q') →
    ¬ task.1 ≤ currentTick →
    step spurious
      {| sys_scheduler := s;
         sys_consumer := Draining currentTick callbacksToRun allTasks |}
      (EvDequeue task)
      {| sys_scheduler := {| scheduledTasks := q' |};
         sys_consumer :=
           Draining currentTick callbacksToRun (allTasks ++ [task]) |}
| step_loop_exit s currentTick callbacksToRun allTasks :
    try_dequeue (scheduledTasks s) = None ∨ spurious = true →
    step spurious
      {| sys_scheduler := s;
         sys_consumer := Draining currentTick callbacksToRun allTasks |}
      EvLoopExit
      {| sys_scheduler := s;
         sys_consumer := Reinserting currentTick callbacksToRun allTasks |}
| step_reinsert s currentTick callbacksToRun remainingTask remaining :
    step spurious
      {| sys_scheduler := s;
         sys_consumer :=
           Reinserting currentTick callbacksToRun (remainingTask :: remaining) |}
      (EvReinsert remainingTask)
      {| sys_scheduler :=
           {| scheduledTasks := enqueue remainingTask (scheduledTasks s) |};
         sys_consumer := Reinserting currentTick callbacksToRun remaining |}
| step_return s currentTick callbacksToRun :
    step spurious
      {| sys_scheduler := s;
         sys_consumer := Reinserting currentTick callbacksToRun [] |}
      (EvReturn callbacksToRun)
      {| sys_scheduler := s; sys_consumer := Idle |}.

(** Runs of the system, with the events in the order in which they
    happened. *)
Inductive exec (spurious : bool) : System → list Event → System → Prop :=
| exec_done σ : exec spurious σ [] σ
| exec_step σ e σ' tr σ'' :
    step spurious σ e σ' → exec spurious σ' tr σ'' →
    exec spurious σ (e :: tr) σ''.

(** The tasks handed to [schedule] during a run, and the vectors returned
    by the [getCallbacks] calls that ended during it. *)
Definition scheduled_of (tr : list Event) : list (Task Callback) :=
  omap (λ e, match e with
             | EvSchedule tick callback => Some (tick, callback)
             | _ => None
             end) tr.

Definition returned_of (tr : list Event) : list (list Callback) :=
  omap (λ e, match e with
             | EvReturn callbacksToRun => Some callbacksToRun
             | _ => None
             end) tr.

Definition scheduled_by (e : Event) : list Callback :=
  match e with EvSchedule _ callback => [callback] | _ => [] end.

Definition returned_by (e : Event) : list Callback :=
  match e with EvReturn callbacksToRun => callbacksToRun | _ => [] end.

(** The callbacks in the consumer's two vectors. *)
Definition held (c : Consumer) : list Callback :=
  match c with
  | Idle => []
  | Draining _ callbacksToRun allTasks => callbacksToRun ++ allTasks.*2
  | Reinserting _ callbacksToRun remaining => callbacksToRun ++ remaining.*2
  end.

(** [task] is in the store or in one of the consumer's vectors (as its
    callback, once it is in [callbacksToRun]). *)
Definition holds (task : Task Callback) (σ : System) : Prop :=
  task ∈ stored (sys_scheduler σ) ∨
  match sys_consumer σ with
  | Idle => False
  | Draining _ callbacksToRun allTasks =>
      task.2 ∈ callbacksToRun ∨ task ∈ allTasks
  | Reinserting _ callbacksToRun remaining =>
      task.2 ∈ callbacksToRun ∨ task ∈ remaining
  end.

(** During a call at [currentTick]: [task] is in [callbacksToRun] already,
    or, the [while] loop still running, in the store. *)
Definition due_tracked (currentTick : Z) (task : Task Callback)
    (σ : System) : Prop :=
  match sys_consumer σ with
  | Idle => False
  | Draining currentTick' callbacksToRun _ =>
      currentTick' = currentTick ∧
      (task.2 ∈ callbacksToRun ∨ task ∈ stored (sys_scheduler σ))
  | Reinserting _ callbacksToRun _ => task.2 ∈ callbacksToRun
  end.

(** One call of [getCallbacks currentTick] on the scheduler [s], from its
    start to its return with [callbacksToRun], leaving [s']; [tr] are the
    events in between, those of racing [schedule] calls included. *)
Definition call_run (spurious : bool) (s : TickScheduler Callback)
    (currentTick : Z) (tr : list Event) (callbacksToRun : list Callback)
    (s' : TickScheduler Callback) : Prop :=
  exec spurious {| sys_scheduler := s; sys_consumer := Idle |}
    (EvCall currentTick :: tr ++ [EvReturn callbacksToRun])
    {| sys_scheduler := s'; sys_consumer := Idle |} ∧
  returned_of tr = [].

(** What the call in progress returns, and the scheduler it leaves, when
    no other thread touches the queue and [try_dequeue] fails only on the
    empty store. *)
Definition outcome (σ : System)
  : option (list Callback * TickScheduler Callback) :=
  match sys_consumer σ with
  | Idle => None
  | Draining currentTick callbacksToRun allTasks =>
      let '(q, callbacksToRun', allTasks') :=
        drain currentTick (scheduledTasks (sys_scheduler σ))
          callbacksToRun allTasks in
      Some (callbacksToRun', {| scheduledTasks := reinsert allTasks' q |})
  | Reinserting _ callbacksToRun remaining =>
      Some (callbacksToRun,
            {| scheduledTasks :=
                 reinsert remaining (scheduledTasks (sys_scheduler σ)) |})
  end.

End InterleavingDefs.

Global Arguments Consumer Callback : clear implicits.
Global Arguments System Callback {Q}.
Global Arguments Event Callback : clear implicits.

(* ===================================================================== *)
(** * Part II: properties *)
(* ===================================================================== *)

(** ** The drain loop and [getCallbacks], for every queue *)

Section TickSchedulerFacts.
Context {Callback : Type} {Q : Queue (Task Callback)}.
Implicit Types (s : TickScheduler Callback) (q : queue (Task Callback)).
Implicit Types (T tick : Z) (task : Task Callback) (l : list (Task Callback)).

Lemma stored_new : stored (TickScheduler_new (Q:=Q)) = [].
Proof. apply contents_empty. Qed.

Lemma stored_schedule tick callback s :
  stored (schedule tick callback s) ≡ₚ stored s ++ [(tick, callback)].
Proof. apply contents_enqueue. Qed.

(** The loop sorts what [try_dequeue] hands out into the two vectors,
    keeping the order of arrival in each. *)
Lemma drain_spec T q cbs rest :
  ∃ l q_end, dequeues q l q_end ∧
    drain T q cbs rest =
      (q_end, cbs ++ (filter (λ task, task.1 ≤ T) l).*2,
       rest ++ filter (λ task, T < task.1) l).
Proof.
  funelim (drain T q cbs rest).
  - clear Heqcall. destruct (decide (task.1 ≤ currentTick)) as [Hdue|Hnot].
    + destruct (H Hdue) as (l & q_end & Hl & ->).
      exists (task :: l), q_end. split; [by econstructor|].
      rewrite filter_cons_True by done. rewrite filter_cons_False by lia.
      by rewrite fmap_cons, <- app_assoc.
    + destruct (H0 Hnot) as (l & q_end & Hl & ->).
      exists (task :: l), q_end. split; [by econstructor|].
      rewrite filter_cons_False by done. rewrite filter_cons_True by lia.
      by rewrite <- app_assoc.
  - exists [], q. split; [by constructor|].
    by rewrite !filter_nil, fmap_nil, !app_nil_r.
Qed.

Lemma dequeues_contents q l q_end :
  dequeues q l q_end → l ≡ₚ contents q ∧ contents q_end = [].
Proof.
  induction 1 as [q Hq|q task q' l q_end Hq _ [IH1 IH2]].
  - apply try_dequeue_None in Hq. by rewrite Hq.
  - split; [|done]. apply try_dequeue_Some in Hq. by rewrite Hq, IH1.
Qed.

Lemma contents_reinsert l q : contents (reinsert l q) ≡ₚ contents q ++ l.
Proof.
  revert q. induction l as [|x l IH]; intros q; simpl.
  - by rewrite app_nil_r.
  - rewrite IH, contents_enqueue, <- app_assoc. done.
Qed.

Lemma getCallbacks_spec T s :
  (getCallbacks T s).1 ≡ₚ (filter (λ task, task.1 ≤ T) (stored s)).*2 ∧
  stored (getCallbacks T s).2 ≡ₚ filter (λ task, T < task.1) (stored s).
Proof.
  unfold getCallbacks, stored.
  destruct (drain_spec T (scheduledTasks s) [] []) as (l & q_end & Hl & ->).
  apply dequeues_contents in Hl as [Hl Hend]. simpl.
  split; [by rewrite Hl|].
  by rewrite contents_reinsert, Hend, Hl.
Qed.

(** The order in which a queue hands out its tasks is fixed by its state. *)
Lemma dequeues_deterministic q l1 l2 q_end1 q_end2 :
  dequeues q l1 q_end1 → dequeues q l2 q_end2 → l1 = l2 ∧ q_end1 = q_end2.
Proof.
  intros H1. revert l2 q_end2.
  induction H1 as [q Hq|q task q' l q_end Hq _ IH]; intros l2 q_end2 H2.
  - inversion H2; subst; [done|congruence].
  - inversion H2 as [|? task2 q2 l2' ? Hq2 H2']; subst; [congruence|].
    rewrite Hq in Hq2. injection Hq2 as <- <-.
    by destruct (IH _ _ H2') as [-> ->].
Qed.

Lemma getCallbacks_order T s l q_end :
  dequeues (scheduledTasks s) l q_end →
  (getCallbacks T s).1 = (filter (λ task, task.1 ≤ T) l).*2.
Proof.
  intros Hl. unfold getCallbacks.
  destruct (drain_spec T (scheduledTasks s) [] []) as (l' & q_end' & Hl' & ->).
  by destruct (dequeues_deterministic _ _ _ _ _ Hl Hl') as [-> _].
Qed.

(** Among tasks with distinct callbacks, the callback tells the task. *)
Lemma NoDup_callbacks_inj l task1 task2 :
  NoDup l.*2 → task1 ∈ l → task2 ∈ l → task1.2 = task2.2 → task1 = task2.
Proof.
  induction l as [|task l IH]; intros Hnd H1 H2 Heq.
  - by apply elem_of_nil in H1.
  - rewrite fmap_cons in Hnd. apply NoDup_cons in Hnd as [Hnotin Hnd].
    apply elem_of_cons in H1 as [->|H1]; apply elem_of_cons in H2 as [->|H2].
    + done.
    + exfalso. apply Hnotin. rewrite Heq. apply list_elem_of_fmap. eauto.
    + exfalso. apply Hnotin. rewrite <- Heq. apply list_elem_of_fmap. eauto.
    + by apply IH.
Qed.

(** A list splits into its due and its not-yet-due tasks. *)
Lemma due_later_split T l :
  l ≡ₚ filter (λ task, task.1 ≤ T) l ++ filter (λ task, T < task.1) l.
Proof.
  induction l as [|task l IH]; [done|].
  destruct (decide (task.1 ≤ T)).
  - rewrite filter_cons_True by done. rewrite (filter_cons_False (λ task, T < task.1)) by lia.
    simpl. by rewrite <- IH.
  - rewrite filter_cons_False by done. rewrite (filter_cons_True (λ task, T < task.1)) by lia.
    rewrite <- Permutation_middle. by rewrite <- IH.
Qed.

Lemma filter_all_later T l :
  Forall (λ task, T < task.1) l →
  filter (λ task, task.1 ≤ T) l = [] ∧ filter (λ task, T < task.1) l = l.
Proof.
  induction 1 as [|task l Hlater _ [IH1 IH2]]; [done|].
  rewrite filter_cons_False by lia. rewrite filter_cons_True by done.
  by rewrite IH1, IH2.
Qed.

(** No callback is created or lost by a call. *)
Lemma getCallbacks_conserves T s :
  (getCallbacks T s).1 ++ (stored (getCallbacks T s).2).*2 ≡ₚ (stored s).*2.
Proof.
  destruct (getCallbacks_spec T s) as [-> ->].
  by rewrite <- fmap_app, <- due_later_split.
Qed.

(** C1.  [getCallbacks currentTick] returns the callbacks of exactly the
    stored tasks with [dueTick <= currentTick] (as a multiset: each as often
    as it was stored) and leaves in the store exactly the tasks with
    [dueTick > currentTick], so that no due task remains; when the stored
    callbacks are distinct, the callback of a task with
    [dueTick > currentTick] is not in the returned vector.  With tasks scheduled at ticks 5, 10, 10 and 15, draining
    at 10 returns the three tasks due at 5 and 10, draining then at 15
    returns the tick-15 task, and draining then at 100 returns nothing. *)
Theorem getCallbacks_returns_exactly_due :
  (∀ T s,
     (getCallbacks T s).1 ≡ₚ (filter (λ task, task.1 ≤ T) (stored s)).*2 ∧
     stored (getCallbacks T s).2 ≡ₚ filter (λ task, T < task.1) (stored s) ∧
     Forall (λ task, T < task.1) (stored (getCallbacks T s).2) ∧
     (∀ task, NoDup (stored s).*2 → task ∈ stored s → T < task.1 →
        task.2 ∉ (getCallbacks T s).1)) ∧
  (∀ a b c d : Callback,
     let s0 := schedule 15 d (schedule 10 c (schedule 10 b
                 (schedule 5 a TickScheduler_new))) in
     let r1 := getCallbacks 10 s0 in
     let r2 := getCallbacks 15 r1.2 in
     let r3 := getCallbacks 100 r2.2 in
     r1.1 ≡ₚ [a; b; c] ∧ stored r1.2 = [(15, d)] ∧
     r2.1 = [d] ∧ stored r2.2 = [] ∧
     r3.1 = [] ∧ stored r3.2 = []).
Proof.
  split.
  - intros T s. destruct (getCallbacks_spec T s) as [H1 H2].
    split; [done|]. split; [done|]. split.
    + rewrite H2. apply Forall_forall. intros task Hin.
      by apply list_elem_of_filter in Hin as [? _].
    + intros task Hnd Hin Hlater. rewrite H1.
      intros (task' & Heq & [Hdue Hin']%list_elem_of_filter)%list_elem_of_fmap.
      assert (task = task') as <- by eauto using NoDup_callbacks_inj.
      lia.
  - intros a b c d s0 r1 r2 r3.
    assert (Hs0 : stored s0 ≡ₚ [(5, a); (10, b); (10, c); (15, d)]).
    { unfold s0. rewrite !stored_schedule, stored_new. done. }
    destruct (getCallbacks_spec 10 s0) as [H11 H12]. fold r1 in H11, H12.
    rewrite Hs0 in H11, H12.
    assert (Hr1 : stored r1.2 = [(15, d)]).
    { apply Permutation_singleton_r. by rewrite H12. }
    destruct (getCallbacks_spec 15 r1.2) as [H21 H22]. fold r2 in H21, H22.
    rewrite Hr1 in H21, H22.
    assert (Hr2 : stored r2.2 = []).
    { apply Permutation_nil_r. by rewrite H22. }
    destruct (getCallbacks_spec 100 r2.2) as [H31 H32]. fold r3 in H31, H32.
    rewrite Hr2 in H31, H32.
    split; [by rewrite H11|]. split; [done|].
    split; [apply Permutation_singleton_r; by rewrite H21|]. split; [done|].
    split; apply Permutation_nil_r; [by rewrite H31|by rewrite H32].
Qed.

(** C3.  A task with [dueTick > currentTick] that is in the store when
    [getCallbacks currentTick] is called is in the store afterwards, with
    the same tick and the same callback; the not-yet-due tasks of the store
    are the same multiset before and after; and a following
    [getCallbacks] at a tick that has reached the task's returns its
    callback. *)
Theorem getCallbacks_keeps_later_tasks T s task :
  task ∈ stored s → T < task.1 →
  task ∈ stored (getCallbacks T s).2 ∧
  filter (λ task, T < task.1) (stored (getCallbacks T s).2)
    ≡ₚ filter (λ task, T < task.1) (stored s) ∧
  ∀ T', task.1 ≤ T' → task.2 ∈ (getCallbacks T' (getCallbacks T s).2).1.
Proof.
  intros Hin Hlater. destruct (getCallbacks_spec T s) as [_ H2].
  assert (task ∈ stored (getCallbacks T s).2) as Hkept.
  { rewrite H2. by apply list_elem_of_filter. }
  split; [done|]. split.
  - rewrite H2. by rewrite list_filter_filter_l.
  - intros T' Hdue.
    destruct (getCallbacks_spec T' (getCallbacks T s).2) as [-> _].
    apply list_elem_of_fmap. exists task. split; [done|].
    by apply list_elem_of_filter.
Qed.

(** C5.  When no stored task has [dueTick <= T] (the empty store included),
    [getCallbacks T] returns the empty vector and leaves the multiset of
    stored tasks unchanged; [getCallbacks 0] on a new scheduler returns the
    empty vector and leaves the store empty.  The function is total and has
    no error result. *)
Theorem getCallbacks_nothing_due T s :
  Forall (λ task, T < task.1) (stored s) →
  ((getCallbacks T s).1 = [] ∧ stored (getCallbacks T s).2 ≡ₚ stored s) ∧
  ((getCallbacks 0 (TickScheduler_new (Q:=Q))).1 = [] ∧
   stored (getCallbacks 0 (TickScheduler_new (Q:=Q))).2 = []).
Proof.
  intros Hnone. split.
  - destruct (getCallbacks_spec T s) as [H1 H2]. split.
    + apply Permutation_nil_r. rewrite H1.
      by rewrite (proj1 (filter_all_later T _ Hnone)).
    + rewrite H2. by rewrite (proj2 (filter_all_later T _ Hnone)).
  - destruct (getCallbacks_spec 0 TickScheduler_new) as [H1 H2].
    rewrite stored_new in H1, H2.
    split; apply Permutation_nil_r; [by rewrite H1|by rewrite H2].
Qed.

End TickSchedulerFacts.

(** ** Sequences of calls *)

Section CallSequences.
Context {Callback : Type} {Q : Queue (Task Callback)}.
Implicit Types (s : TickScheduler Callback) (calls : list (Call Callback)).
Implicit Types (T tick : Z) (task : Task Callback) (l : list (Task Callback)).

Lemma run_app calls1 calls2 s :
  run (calls1 ++ calls2) s =
    ((run calls1 s).1 ++ (run calls2 (run calls1 s).2).1,
     (run calls2 (run calls1 s).2).2).
Proof.
  revert s. induction calls1 as [|[tick callback|T] calls1 IH]; intros s; simpl.
  - by destruct (run calls2 s).
  - apply IH.
  - destruct (getCallbacks T s) as [out s']. rewrite IH.
    destruct (run calls1 s') as [outs1 s1]. simpl.
    by destruct (run calls2 s1).
Qed.

Lemma scheduled_app calls1 calls2 :
  scheduled (calls1 ++ calls2) = scheduled calls1 ++ scheduled calls2.
Proof.
  induction calls1 as [|[tick callback|T] calls1 IH]; simpl; by rewrite ?IH.
Qed.

(** Every callback handed to the scheduler is, at any later time, either
    still stored or in the result of an earlier [getCallbacks], and exactly
    as often as it was handed in. *)
Lemma run_conserves calls s :
  concat (run calls s).1 ++ (stored (run calls s).2).*2
    ≡ₚ (stored s).*2 ++ (scheduled calls).*2.
Proof.
  revert s. induction calls as [|[tick callback|T] calls IH]; intros s; simpl.
  - by rewrite app_nil_r.
  - rewrite IH, stored_schedule, fmap_app, <- app_assoc. done.
  - pose proof (getCallbacks_conserves T s) as Hc.
    destruct (getCallbacks T s) as [out s']. simpl in Hc.
    specialize (IH s'). destruct (run calls s') as [outs s'']. simpl in *.
    rewrite <- app_assoc, IH, app_assoc, Hc. done.
Qed.

(** C2.  Telling tasks apart by their callbacks (all callbacks stored at
    the start or scheduled later are distinct): over any sequence of
    [schedule] and [getCallbacks] calls, with any ticks, no callback occurs
    in two results or twice in one; and a callback returned during a first
    part of the sequence is not in the store at the end of that part, nor
    at the end of any continuation, and is in no later result. *)
Theorem at_most_once_delivery calls1 calls2 s :
  NoDup ((stored s).*2 ++ (scheduled (calls1 ++ calls2)).*2) →
  let r1 := run calls1 s in
  let r2 := run calls2 r1.2 in
  NoDup (concat (run (calls1 ++ calls2) s).1) ∧
  ∀ callback, callback ∈ concat r1.1 →
    (callback ∉ (stored r1.2).*2) ∧
    (callback ∉ concat r2.1) ∧
    (callback ∉ (stored r2.2).*2).
Proof.
  intros Hnodup r1 r2.
  rewrite <- (run_conserves (calls1 ++ calls2) s) in Hnodup.
  rewrite run_app in *. cbn [fst snd] in *. fold r1 r2 in Hnodup |- *.
  rewrite concat_app in *.
  apply NoDup_app in Hnodup as (Houts & Hstore & _).
  split; [done|].
  intros callback Hin.
  apply NoDup_app in Houts as (_ & Hlater & _).
  split; [|split].
  - intros Hst.
    assert (callback ∈ concat r2.1 ++ (stored r2.2).*2) as Hc.
    { unfold r2. rewrite run_conserves. apply elem_of_app. by left. }
    apply elem_of_app in Hc as [Hc|Hc].
    + by apply (Hlater callback).
    + apply (Hstore callback); [|done]. apply elem_of_app. by left.
  - by apply Hlater.
  - apply Hstore. apply elem_of_app. by left.
Qed.

Lemma run_schedules (tasks : list (Task Callback)) s :
  (run (schedule_task <$> tasks) s).1 = [] ∧
  stored (run (schedule_task <$> tasks) s).2 ≡ₚ stored s ++ tasks.
Proof.
  revert s. induction tasks as [|[tick callback] tasks IH]; intros s.
  - simpl. by rewrite app_nil_r.
  - change (run (schedule_task <$> (tick, callback) :: tasks) s)
      with (run (schedule_task <$> tasks) (schedule tick callback s)).
    destruct (IH (schedule tick callback s)) as [-> ->].
    split; [done|]. by rewrite stored_schedule, <- app_assoc.
Qed.


(** Draining at [T] and then at later ticks returns, of a list of tasks,
    those due at [T] and, of the others, those due at one of the later
    ticks. *)
Lemma filter_due_some T (ticks : list Z) l :
  filter (λ task, Exists (λ T', task.1 ≤ T') (T :: ticks)) l ≡ₚ
  filter (λ task, task.1 ≤ T) l ++
  filter (λ task, Exists (λ T', task.1 ≤ T') ticks)
    (filter (λ task, T < task.1) l).
Proof.
  induction l as [|task l IH]; [done|].
  destruct (decide (task.1 ≤ T)) as [Hdue|Hnot].
  - rewrite filter_cons_True by (by left).
    rewrite (filter_cons_True (λ task, task.1 ≤ T)) by done.
    rewrite (filter_cons_False (λ task, T < task.1)) by lia.
    simpl. by rewrite IH.
  - rewrite (filter_cons_False (λ task, task.1 ≤ T)) by done.
    rewrite (filter_cons_True (λ task, T < task.1)) by lia.
    destruct (decide (Exists (λ T', task.1 ≤ T') ticks)) as [Hex|Hnex].
    + rewrite filter_cons_True by (by right).
      rewrite (filter_cons_True _ task (filter _ l)) by done.
      rewrite <- Permutation_middle. by rewrite IH.
    + rewrite filter_cons_False.
      2: { intros Hex. apply Exists_cons in Hex as [?|?]; [lia|done]. }
      by rewrite (filter_cons_False _ task (filter _ l)) by done.
Qed.

Lemma run_collects (ticks : list Z) s :
  concat (run (CollectDue <$> ticks) s).1 ≡ₚ
  (filter (λ task, Exists (λ T, task.1 ≤ T) ticks) (stored s)).*2.
Proof.
  revert s. induction ticks as [|T ticks IH]; intros s.
  - simpl. rewrite (list_filter_iff _ (λ _, False)).
    2: { intros task. split; [|done]. by intros ?%Exists_nil. }
    induction (stored s) as [|task l IHl]; [done|].
    by rewrite filter_cons_False by tauto.
  - destruct (getCallbacks_spec T s) as [H1 H2].
    rewrite fmap_cons. cbn [run].
    destruct (getCallbacks T s) as [out s']. cbn [fst snd] in H1, H2.
    specialize (IH s'). destruct (run (CollectDue <$> ticks) s') as [outs s''].
    cbn [fst snd concat] in *.
    rewrite IH, H1, H2, filter_due_some, fmap_app. done.
Qed.

Lemma sorted_le_last (ticks : list Z) (Tfinal : Z) :
  Sorted Z.le ticks → last ticks = Some Tfinal →
  Forall (λ T, T ≤ Tfinal) ticks.
Proof.
  intros Hsorted%Sorted_StronglySorted; [|intros x y z; lia].
  induction Hsorted as [|T ticks Hs IH Hall]; intros Hlast; [done|].
  destruct ticks as [|T' ticks'].
  - simpl in Hlast. injection Hlast as ->. by repeat constructor.
  - rewrite last_cons_cons in Hlast. specialize (IH Hlast).
    constructor; [|done].
    apply Forall_inv in Hall. apply Forall_inv in IH. lia.
Qed.

(** C4.  After any finite sequence of [schedule] calls on a new scheduler,
    repeated [getCallbacks] calls with non-decreasing ticks return, taken
    together, the callbacks of exactly the scheduled tasks whose tick is at
    most the final tick, each as often as it was scheduled: none is
    omitted and none is returned twice. *)
Theorem monotonic_drain_complete (tasks : list (Task Callback))
    (ticks : list Z) (Tfinal : Z) :
  Sorted Z.le ticks → last ticks = Some Tfinal →
  concat (run (CollectDue <$> ticks)
            (run (schedule_task <$> tasks) TickScheduler_new).2).1
    ≡ₚ (filter (λ task, task.1 ≤ Tfinal) tasks).*2.
Proof.
  intros Hsorted Hlast.
  destruct (run_schedules tasks TickScheduler_new) as [_ Hst].
  rewrite stored_new in Hst. simpl in Hst.
  rewrite run_collects, Hst.
  pose proof (sorted_le_last ticks Tfinal Hsorted Hlast) as Hle.
  rewrite (list_filter_iff _ (λ task, task.1 ≤ Tfinal)); [done|].
  intros task. split.
  - intros (T & Hin & HT)%Exists_exists.
    rewrite Forall_forall in Hle. specialize (Hle T Hin). lia.
  - intros HT. apply Exists_exists. exists Tfinal. split; [|done].
    by apply last_Some_elem_of.
Qed.

End CallSequences.

(** ** Interleaved runs *)

Section Interleaving.
Context {Callback : Type} {Q : Queue (Task Callback)}.
Implicit Types (s : TickScheduler Callback) (σ : System Callback).
Implicit Types (e : Event Callback) (tr : list (Event Callback)).
Implicit Types (T tick : Z) (task : Task Callback) (spurious : bool).

Lemma drain_turn T (q : queue (Task Callback)) cbs rest :
  drain T q cbs rest =
  match try_dequeue q with
  | Some (task, q') =>
      if decide (task.1 ≤ T) then drain T q' (cbs ++ [task.2]) rest
      else drain T q' cbs (rest ++ [task])
  | None => (q, cbs, rest)
  end.
Proof.
  rewrite drain_equation_1.
  destruct (inspect (try_dequeue q)) as [[[task q']|] E].
  all: simp drain; rewrite E; try destruct (decide _);
    rewrite ?drain_equation_1; reflexivity.
Qed.

Lemma exec_app spurious σ tr1 tr2 σ'' :
  exec spurious σ (tr1 ++ tr2) σ'' ↔
  ∃ σ', exec spurious σ tr1 σ' ∧ exec spurious σ' tr2 σ''.
Proof.
  split.
  - revert σ. induction tr1 as [|e tr1 IH]; intros σ H; simpl in H.
    + exists σ. split; [constructor|done].
    + inversion H as [|? ? σ1 ? ? Hstep Hrest]; subst.
      destruct (IH _ Hrest) as (σ' & H1 & H2).
      exists σ'. split; [by econstructor|done].
  - intros (σ' & H1 & H2). induction H1; simpl; [done|].
    econstructor; [done|]. by apply IHexec.
Qed.

Lemma exec_one spurious σ e σ' :
  exec spurious σ [e] σ' ↔ step spurious σ e σ'.
Proof.
  split.
  - intros H. inversion H as [|? ? σ1 ? ? Hstep Hrest]; subst.
    by inversion Hrest; subst.
  - intros H. econstructor; [done|constructor].
Qed.

(** *** Nothing is lost and nothing is duplicated *)

Lemma step_conserves spurious σ e σ' :
  step spurious σ e σ' →
  scheduled_by e ++ held (sys_consumer σ) ++ (stored (sys_scheduler σ)).*2
    ≡ₚ returned_by e ++ held (sys_consumer σ')
         ++ (stored (sys_scheduler σ')).*2.
Proof.
  destruct 1 as [s c tick callback|s T|s T cbs rest task q' Hdq Hdue
                 |s T cbs rest task q' Hdq Hlater|s T cbs rest Hexit
                 |s T cbs task rest|s T cbs]; simpl.
  - rewrite stored_schedule, fmap_app. simpl.
    rewrite (Permutation_app_comm (stored s).*2 [callback]).
    rewrite (app_assoc (held c)). rewrite <- Permutation_middle. simpl.
    by rewrite app_nil_r.
  - done.
  - apply try_dequeue_Some in Hdq. unfold stored. simpl. rewrite Hdq.
    rewrite fmap_cons, <- !app_assoc. simpl.
    by rewrite <- !Permutation_middle.
  - apply try_dequeue_Some in Hdq. unfold stored. simpl. rewrite Hdq.
    rewrite !fmap_app, fmap_cons, <- !app_assoc. simpl.
    by rewrite <- !Permutation_middle.
  - done.
  - unfold stored. simpl. rewrite contents_enqueue, fmap_app. simpl.
    rewrite <- !Permutation_middle. by rewrite app_nil_r.
  - by rewrite app_nil_r.
Qed.

Lemma scheduled_of_cons e tr :
  (scheduled_of (e :: tr)).*2 = scheduled_by e ++ (scheduled_of tr).*2.
Proof. by destruct e. Qed.

Lemma returned_of_cons e tr :
  concat (returned_of (e :: tr)) = returned_by e ++ concat (returned_of tr).
Proof. by destruct e. Qed.

Lemma exec_conserves spurious σ tr σ' :
  exec spurious σ tr σ' →
  (scheduled_of tr).*2 ++ held (sys_consumer σ)
      ++ (stored (sys_scheduler σ)).*2
    ≡ₚ concat (returned_of tr) ++ held (sys_consumer σ')
         ++ (stored (sys_scheduler σ')).*2.
Proof.
  induction 1 as [σ|σ e σ' tr σ'' Hstep _ IH]; [done|].
  rewrite scheduled_of_cons, returned_of_cons.
  apply step_conserves in Hstep.
  rewrite <- (app_assoc (returned_by e)), <- IH.
  rewrite (Permutation_app_swap_app (returned_by e)), <- Hstep.
  rewrite <- (app_assoc (scheduled_by e)).
  apply Permutation_app_swap_app.
Qed.

(** *** One call, from its start to its return *)

Lemma returned_of_cons_nil e tr :
  returned_of (e :: tr) = [] → (∀ r, e ≠ EvReturn r) ∧ returned_of tr = [].
Proof. destruct e; simpl; try done. Qed.

Lemma scheduled_of_cons_nil e tr :
  scheduled_of (e :: tr) = [] →
  (∀ tick callback, e ≠ EvSchedule tick callback) ∧ scheduled_of tr = [].
Proof. destruct e; simpl; try done. Qed.

Lemma call_run_inv spurious s T tr cbs s' :
  call_run spurious s T tr cbs s' →
  ∃ σ, exec spurious
         {| sys_scheduler := s; sys_consumer := Draining T [] [] |} tr σ ∧
       returned_of tr = [] ∧
       step spurious σ (EvReturn cbs)
         {| sys_scheduler := s'; sys_consumer := Idle |}.
Proof.
  intros [Hexec Hnoret].
  inversion Hexec as [|? ? σa ? ? Hcall Hrest]; subst.
  inversion Hcall; subst.
  apply exec_app in Hrest as (σ & Hbody & Hlast).
  apply exec_one in Hlast. by exists σ.
Qed.

Lemma call_run_intro spurious s T tr cbs σ s' :
  exec spurious
    {| sys_scheduler := s; sys_consumer := Draining T [] [] |} tr σ →
  returned_of tr = [] →
  step spurious σ (EvReturn cbs)
    {| sys_scheduler := s'; sys_consumer := Idle |} →
  call_run spurious s T tr cbs s'.
Proof.
  intros Hbody Hnoret Hlast. split; [|done].
  econstructor; [constructor|].
  apply exec_app. exists σ. split; [done|]. by apply exec_one.
Qed.

(** A task that is in the store or in the consumer's hands stays so until
    the call returns. *)
Lemma step_holds spurious σ e σ' task :
  step spurious σ e σ' → (∀ r, e ≠ EvReturn r) →
  holds task σ → holds task σ'.
Proof.
  unfold holds.
  destruct 1 as [s c tick callback|s T|s T cbs rest x q' Hdq Hdue
                 |s T cbs rest x q' Hdq Hlater|s T cbs rest Hexit
                 |s T cbs x rest|s T cbs]; simpl; intros Hnoret.
  - intros [Hin|Hc]; [left|by right].
    rewrite stored_schedule. apply elem_of_app. by left.
  - intros [Hin|[]]. by left.
  - apply try_dequeue_Some in Hdq. unfold stored. simpl.
    intros [Hin|[Hin|Hin]].
    + rewrite Hdq in Hin. apply elem_of_cons in Hin as [->|Hin]; [|by left].
      right. left. apply elem_of_app. right. by apply list_elem_of_singleton.
    + right. left. apply elem_of_app. by left.
    + right. by right.
  - apply try_dequeue_Some in Hdq. unfold stored. simpl.
    intros [Hin|[Hin|Hin]].
    + rewrite Hdq in Hin. apply elem_of_cons in Hin as [->|Hin]; [|by left].
      right. right. apply elem_of_app. right. by apply list_elem_of_singleton.
    + right. by left.
    + right. right. apply elem_of_app. by left.
  - done.
  - unfold stored. simpl. intros [Hin|[Hin|Hin]].
    + left. rewrite contents_enqueue. apply elem_of_app. by left.
    + right. by left.
    + apply elem_of_cons in Hin as [->|Hin]; [|right; by right].
      left. rewrite contents_enqueue. apply elem_of_app. right.
      by apply list_elem_of_singleton.
  - by destruct (Hnoret cbs).
Qed.

Lemma step_holds_scheduled spurious σ tick callback σ' :
  step spurious σ (EvSchedule tick callback) σ' → holds (tick, callback) σ'.
Proof.
  inversion 1; subst. left. simpl. rewrite stored_schedule.
  apply elem_of_app. right. by apply list_elem_of_singleton.
Qed.

Lemma exec_holds spurious σ tr σ' task :
  exec spurious σ tr σ' → returned_of tr = [] →
  holds task σ ∨ task ∈ scheduled_of tr → holds task σ'.
Proof.
  induction 1 as [σ|σ e σ' tr σ'' Hstep _ IH]; intros Hnoret Hin.
  - destruct Hin as [?|Hin]; [done|]. by apply elem_of_nil in Hin.
  - apply returned_of_cons_nil in Hnoret as [Hne Hnoret].
    apply IH; [done|]. destruct Hin as [Hin|Hin].
    + left. by eapply step_holds.
    + destruct e as [tick callback| | | | |]; simpl in Hin; try by right.
      apply elem_of_cons in Hin as [->|Hin]; [|by right].
      left. by eapply step_holds_scheduled.
Qed.

(** When [try_dequeue] fails only on the empty store, a due task that was
    stored at the start of the call is in [callbacksToRun] once the [while]
    loop has ended. *)
Lemma step_due_tracked σ e σ' T task :
  step false σ e σ' → (∀ r, e ≠ EvReturn r) → task.1 ≤ T →
  due_tracked T task σ → due_tracked T task σ'.
Proof.
  unfold due_tracked.
  destruct 1 as [s c tick callback|s T'|s T' cbs rest x q' Hdq Hdue
                 |s T' cbs rest x q' Hdq Hlater|s T' cbs rest Hexit
                 |s T' cbs x rest|s T' cbs]; simpl; intros Hnoret Htask.
  - destruct c as [|T' cbs rest|T' cbs rest]; [done| |done].
    intros [-> [Hin|Hin]]; (split; [done|]); [by left|right].
    rewrite stored_schedule. apply elem_of_app. by left.
  - done.
  - apply try_dequeue_Some in Hdq. unfold stored. simpl.
    intros [-> [Hin|Hin]]; (split; [done|]).
    + left. apply elem_of_app. by left.
    + rewrite Hdq in Hin. apply elem_of_cons in Hin as [->|Hin]; [|by right].
      left. apply elem_of_app. right. by apply list_elem_of_singleton.
  - apply try_dequeue_Some in Hdq. unfold stored. simpl.
    intros [-> [Hin|Hin]]; (split; [done|]); [by left|].
    rewrite Hdq in Hin. apply elem_of_cons in Hin as [->|Hin]; [done|by right].
  - destruct Hexit as [Hempty|?]; [|done].
    apply try_dequeue_None in Hempty. unfold stored.
    intros [_ [Hin|Hin]]; [done|]. rewrite Hempty in Hin.
    by apply elem_of_nil in Hin.
  - done.
  - by destruct (Hnoret cbs).
Qed.

Lemma exec_due_tracked σ tr σ' T task :
  exec false σ tr σ' → returned_of tr = [] → task.1 ≤ T →
  due_tracked T task σ → due_tracked T task σ'.
Proof.
  induction 1 as [σ|σ e σ' tr σ'' Hstep _ IH]; intros Hnoret Hdue Ht; [done|].
  apply returned_of_cons_nil in Hnoret as [Hne Hnoret].
  apply IH; [done..|]. by eapply step_due_tracked.
Qed.

(** *** Calls that no other thread interferes with *)

Lemma outcome_start T s :
  outcome {| sys_scheduler := s; sys_consumer := Draining T [] [] |}
  = Some (getCallbacks T s).
Proof.
  unfold outcome, getCallbacks. simpl.
  by destruct (drain T (scheduledTasks s) [] []) as [[q cbs] rest].
Qed.

Lemma step_outcome σ e σ' :
  step false σ e σ' → (∀ tick callback, e ≠ EvSchedule tick callback) →
  (∀ r, e ≠ EvReturn r) → sys_consumer σ ≠ Idle →
  outcome σ' = outcome σ ∧ sys_consumer σ' ≠ Idle.
Proof.
  unfold outcome.
  destruct 1 as [s c tick callback|s T|s T cbs rest x q' Hdq Hdue
                 |s T cbs rest x q' Hdq Hlater|s T cbs rest Hexit
                 |s T cbs x rest|s T cbs]; simpl;
    intros Hnosched Hnoret Hbusy; try done.
  - by destruct (Hnosched tick callback).
  - split; [|done]. rewrite (drain_turn T (scheduledTasks s)), Hdq.
    by rewrite decide_True.
  - split; [|done]. rewrite (drain_turn T (scheduledTasks s)), Hdq.
    by rewrite decide_False.
  - split; [|done]. destruct Hexit as [Hempty|?]; [|done].
    by rewrite (drain_turn T (scheduledTasks s)), Hempty.
  - by destruct (Hnoret cbs).
Qed.

Lemma exec_outcome σ tr σ' :
  exec false σ tr σ' → scheduled_of tr = [] → returned_of tr = [] →
  sys_consumer σ ≠ Idle → outcome σ' = outcome σ.
Proof.
  induction 1 as [σ|σ e σ' tr σ'' Hstep _ IH]; intros Hq Hnoret Hbusy; [done|].
  apply returned_of_cons_nil in Hnoret as [Hne Hnoret].
  apply scheduled_of_cons_nil in Hq as [Hns Hq].
  destruct (step_outcome _ _ _ Hstep Hns Hne Hbusy) as [<- Hbusy'].
  by apply IH.
Qed.

Lemma return_outcome spurious σ cbs s' :
  step spurious σ (EvReturn cbs)
    {| sys_scheduler := s'; sys_consumer := Idle |} →
  outcome σ = Some (cbs, s').
Proof. inversion 1; subst. unfold outcome. simpl. by destruct s'. Qed.

Lemma scheduled_of_app tr1 tr2 :
  scheduled_of (tr1 ++ tr2) = scheduled_of tr1 ++ scheduled_of tr2.
Proof. apply omap_app. Qed.

Lemma returned_of_app tr1 tr2 :
  returned_of (tr1 ++ tr2) = returned_of tr1 ++ returned_of tr2.
Proof. apply omap_app. Qed.

(** Left alone, the [while] loop runs to its end. *)
Lemma drain_exec T (q : queue (Task Callback)) cbs rest :
  ∃ tr, scheduled_of tr = [] ∧ returned_of tr = [] ∧
    exec false
      {| sys_scheduler := {| scheduledTasks := q |};
         sys_consumer := Draining T cbs rest |} tr
      {| sys_scheduler := {| scheduledTasks := (drain T q cbs rest).1.1 |};
         sys_consumer :=
           Reinserting T (drain T q cbs rest).1.2 (drain T q cbs rest).2 |}.
Proof.
  funelim (drain T q cbs rest).
  - clear Heqcall. destruct (decide (task.1 ≤ currentTick)) as [Hdue|Hnot].
    + destruct (H Hdue) as (tr & Hq & Hr & Hexec).
      exists (EvDequeue task :: tr). split; [done|]. split; [done|].
      econstructor; [|exact Hexec]. by apply step_dequeue_due.
    + destruct (H0 Hnot) as (tr & Hq & Hr & Hexec).
      exists (EvDequeue task :: tr). split; [done|]. split; [done|].
      econstructor; [|exact Hexec]. by apply step_dequeue_later.
  - exists [EvLoopExit]. split; [done|]. split; [done|].
    econstructor; [|constructor]. apply step_loop_exit. by left.
Qed.

(** So does the [for] loop. *)
Lemma reinsert_exec T cbs rest (q : queue (Task Callback)) :
  ∃ tr, scheduled_of tr = [] ∧ returned_of tr = [] ∧
    exec false
      {| sys_scheduler := {| scheduledTasks := q |};
         sys_consumer := Reinserting T cbs rest |} tr
      {| sys_scheduler := {| scheduledTasks := reinsert rest q |};
         sys_consumer := Reinserting T cbs [] |}.
Proof.
  revert q. induction rest as [|task rest IH]; intros q.
  - exists []. split; [done|]. split; [done|]. constructor.
  - destruct (IH (enqueue task q)) as (tr & Hq & Hr & Hexec).
    exists (EvReinsert task :: tr). split; [done|]. split; [done|].
    econstructor; [|exact Hexec]. apply step_reinsert.
Qed.

(** A call that nothing interferes with returns, and returns what
    [getCallbacks] computes. *)
Lemma quiet_call_run T s :
  ∃ tr, scheduled_of tr = [] ∧
    call_run false s T tr (getCallbacks T s).1 (getCallbacks T s).2.
Proof.
  destruct s as [q].
  destruct (drain_exec T q [] []) as (tr1 & Hq1 & Hr1 & Hexec1).
  unfold getCallbacks. simpl.
  destruct (drain T q [] []) as [[q_end cbs] rest]. simpl in *.
  destruct (reinsert_exec T cbs rest q_end) as (tr2 & Hq2 & Hr2 & Hexec2).
  exists (tr1 ++ tr2). split; [by rewrite scheduled_of_app, Hq1, Hq2|].
  eapply call_run_intro.
  - apply exec_app. eexists. split; [exact Hexec1|exact Hexec2].
  - by rewrite returned_of_app, Hr1, Hr2.
  - apply step_return.
Qed.

Lemma try_dequeue_empty :
  try_dequeue (empty_queue (Queue:=Q)) = None.
Proof.
  destruct (try_dequeue empty_queue) as [[task q']|] eqn:Hdq; [|done].
  apply try_dequeue_Some in Hdq. rewrite contents_empty in Hdq.
  by apply Permutation_nil_cons in Hdq.
Qed.



End Interleaving.

(** ** The first-in first-out store *)

Section FifoStore.
Context {Callback : Type}.
#[local] Existing Instance fifo.
Implicit Types (s : TickScheduler Callback) (q l : list (Task Callback)).
Implicit Types (T tick : Z) (task : Task Callback).

Lemma fifo_dequeues q l (q_end : list (Task Callback)) :
  dequeues (Q:=fifo _) q l q_end → l = q ∧ q_end = [].
Proof.
  induction 1 as [q Hq|q task q' l q_end Hq _ [-> ->]].
  - by destruct q.
  - destruct q as [|task' q'']; [done|]. simpl in Hq.
    by injection Hq as -> ->.
Qed.

Lemma fifo_reinsert l q : reinsert (Q:=fifo _) l q = q ++ l.
Proof.
  revert q. induction l as [|task l IH]; intros q; simpl.
  - by rewrite app_nil_r.
  - rewrite IH. unfold fifo_enqueue. by rewrite <- app_assoc.
Qed.

Lemma fifo_run_schedules (tasks : list (Task Callback)) s :
  scheduledTasks (run (schedule_task <$> tasks) s).2 = scheduledTasks s ++ tasks.
Proof.
  revert s. induction tasks as [|[tick callback] tasks IH]; intros s.
  - simpl. by rewrite app_nil_r.
  - change (run (schedule_task <$> (tick, callback) :: tasks) s)
      with (run (schedule_task <$> tasks) (schedule tick callback s)).
    rewrite IH. simpl. unfold fifo_enqueue. by rewrite <- app_assoc.
Qed.

(** C9.  With a first-in first-out queue as the store, the store is the
    list of tasks in the order of their [schedule] calls,
    [getCallbacks currentTick] returns the callbacks of the due tasks in
    that order, and the tasks that stay keep their relative order: the call
    is a stable partition of the queue. *)
Theorem getCallbacks_fifo_stable_partition :
  (∀ T s,
     getCallbacks T s =
       ((filter (λ task, task.1 ≤ T) (scheduledTasks s)).*2,
        {| scheduledTasks := filter (λ task, T < task.1) (scheduledTasks s) |})) ∧
  (∀ tasks : list (Task Callback),
     scheduledTasks (run (schedule_task <$> tasks) TickScheduler_new).2 = tasks).
Proof.
  split.
  - intros T s. unfold getCallbacks.
    destruct (drain_spec T (scheduledTasks s) [] []) as (l & q_end & Hl & ->).
    apply fifo_dequeues in Hl as [-> ->]. simpl.
    by rewrite fifo_reinsert.
  - intros tasks. by rewrite fifo_run_schedules.
Qed.

End FifoStore.

(** ** The player-iterator natives *)

Module NativesPlayersFacts.
Import NativesPlayers.

(** Following the null pointer is undefined, whatever the heap holds. *)
Lemma deref_nullptr {ConnectedPlayerIterator : Type}
    (h : Heap (ConnectedPlayerIterator:=ConnectedPlayerIterator)) :
  deref h nullptr = None.
Proof. reflexivity. Qed.

(** The handle returned by [CreateConnectedPlayersIterator] is not null and
    points to the new iterator, on which the natives call through. *)
Lemma created_iterator_live {ConnectedPlayerIterator ScriptContext : Type}
    (HasNext : ConnectedPlayerIterator → bool)
    (GetArgument : ScriptContext → nat → pointer)
    (GetConnectedPlayersIterator : ConnectedPlayerIterator)
    (script_context script_context' : ScriptContext) (h : Heap) :
  let r := CreateConnectedPlayersIterator GetConnectedPlayersIterator
             script_context h in
  r.1 ≠ nullptr ∧ h !! r.1 = None ∧
  deref r.2 r.1 = Some GetConnectedPlayersIterator ∧
  (GetArgument script_context' 0%nat = r.1 →
   IteratorHasNext HasNext GetArgument script_context' r.2
     = Some (HasNext GetConnectedPlayersIterator)).
Proof.
  unfold CreateConnectedPlayersIterator, Heap, pointer in *. cbn [fst snd].
  set (p := fresh ({[nullptr]} ∪ dom h)).
  assert (p ∉ ({[nullptr]} ∪ dom h : gset N)) as Hfresh by apply is_fresh.
  assert (p ≠ nullptr) as Hp by set_solver.
  assert (h !! p = None) as Hh by (apply not_elem_of_dom; set_solver).
  assert (deref (<[p:=GetConnectedPlayersIterator]> h) p
          = Some GetConnectedPlayersIterator) as Hd.
  { unfold deref. rewrite decide_False by done.
    apply (lookup_insert_eq (M:=gmap N)). }
  split; [done|]. split; [done|]. split; [done|].
  intros Harg. unfold IteratorHasNext. rewrite Harg.
  rewrite decide_False by done.
  change (deref (<[p:=GetConnectedPlayersIterator]> h) p
            ≫= (λ it, Some (HasNext it))
          = Some (HasNext GetConnectedPlayersIterator)).
  by rewrite Hd.
Qed.

(** C10.  Called with a null iterator argument, [IteratorHasNext] returns
    [false], [IteratorGetCurrentSlot] returns [-1], and [IteratorMoveNext]
    and [DestroyIterator] leave the heap as it is; none of them follows the
    null pointer (no result is the undefined one), whatever the member
    functions of the underlying iterator are. *)
Theorem null_iterator_tolerated {ConnectedPlayerIterator ScriptContext : Type}
    (HasNext : ConnectedPlayerIterator → bool)
    (GetCurrentSlot : ConnectedPlayerIterator → Z)
    (MoveNext : ConnectedPlayerIterator → ConnectedPlayerIterator)
    (GetArgument : ScriptContext → nat → pointer)
    (script_context : ScriptContext) (h : Heap) :
  GetArgument script_context 0%nat = nullptr →
  IteratorHasNext HasNext GetArgument script_context h = Some false ∧
  IteratorGetCurrentSlot GetCurrentSlot GetArgument script_context h = Some (-1) ∧
  IteratorMoveNext MoveNext GetArgument script_context h = Some h ∧
  DestroyIterator GetArgument script_context h = Some h.
Proof.
  intros Hnull.
  unfold IteratorHasNext, IteratorGetCurrentSlot, IteratorMoveNext, DestroyIterator.
  rewrite Hnull. repeat split; by repeat case_decide.
Qed.

End NativesPlayersFacts.

(** ** The theorems at concrete schedulers

    Callbacks are told apart by a number; the store is the first-in
    first-out queue. *)

Section Witnesses.
#[local] Existing Instance fifo.

Lemma getCallbacks_returns_exactly_due_witness :
  NoDup (stored four_tasks).*2 ∧ (15, 4%nat) ∈ stored four_tasks ∧
  10 < (15, 4%nat).1 ∧
  (15, 4%nat).2 ∉ (getCallbacks 10 four_tasks).1.
Proof.
  assert (NoDup (stored four_tasks).*2) as Hnd.
  { apply (bool_decide_unpack _). vm_compute. exact I. }
  assert ((15, 4%nat) ∈ stored four_tasks) as Hin.
  { apply (bool_decide_unpack _). vm_compute. exact I. }
  assert (10 < (15, 4%nat).1) as Hlater by (simpl; lia).
  split; [exact Hnd|]. split; [exact Hin|]. split; [exact Hlater|].
  exact (proj2 (proj2 (proj2
    (proj1 getCallbacks_returns_exactly_due 10 four_tasks)))
      (15, 4%nat) Hnd Hin Hlater).
Defined.

Lemma at_most_once_delivery_witness :
  let calls1 := [Schedule 5 1%nat; Schedule 10 2%nat; Schedule 15 3%nat;
                 CollectDue 10] in
  let calls2 := [Schedule 7 4%nat; CollectDue 10; CollectDue 20] in
  let s : TickScheduler nat := TickScheduler_new in
  NoDup ((stored s).*2 ++ (scheduled (calls1 ++ calls2)).*2) ∧
  NoDup (concat (run (calls1 ++ calls2) s).1) ∧
  ∀ callback, callback ∈ concat (run calls1 s).1 →
    (callback ∉ (stored (run calls1 s).2).*2) ∧
    (callback ∉ concat (run calls2 (run calls1 s).2).1) ∧
    (callback ∉ (stored (run calls2 (run calls1 s).2).2).*2).
Proof.
  intros calls1 calls2 s.
  assert (NoDup ((stored s).*2 ++ (scheduled (calls1 ++ calls2)).*2)) as H.
  { apply (bool_decide_unpack _). vm_compute. exact I. }
  split; [exact H|]. exact (at_most_once_delivery calls1 calls2 s H).
Defined.

Lemma getCallbacks_keeps_later_tasks_witness :
  (15, 4%nat) ∈ stored four_tasks ∧ 10 < (15, 4%nat).1 ∧
  (15, 4%nat) ∈ stored (getCallbacks 10 four_tasks).2 ∧
  filter (λ task, 10 < task.1) (stored (getCallbacks 10 four_tasks).2)
    ≡ₚ filter (λ task, 10 < task.1) (stored four_tasks) ∧
  ∀ T', (15, 4%nat).1 ≤ T' →
    (15, 4%nat).2 ∈ (getCallbacks T' (getCallbacks 10 four_tasks).2).1.
Proof.
  assert ((15, 4%nat) ∈ stored four_tasks) as Hin.
  { apply (bool_decide_unpack _). vm_compute. exact I. }
  assert (10 < (15, 4%nat).1) as Hlater by (simpl; lia).
  split; [exact Hin|]. split; [exact Hlater|].
  exact (getCallbacks_keeps_later_tasks 10 four_tasks (15, 4%nat) Hin Hlater).
Defined.

Lemma monotonic_drain_complete_witness :
  let tasks := [(5, 1%nat); (10, 2%nat); (10, 3%nat); (15, 4%nat); (30, 5%nat)] in
  let ticks := [3; 10; 10; 20] in
  Sorted Z.le ticks ∧ last ticks = Some 20 ∧
  concat (run (CollectDue <$> ticks)
            (run (schedule_task <$> tasks)
               (TickScheduler_new (Callback:=nat))).2).1
    ≡ₚ (filter (λ task, task.1 ≤ 20) tasks).*2.
Proof.
  intros tasks ticks.
  assert (Sorted Z.le ticks) as Hsorted.
  { repeat constructor; lia. }
  assert (last ticks = Some 20) as Hlast by reflexivity.
  split; [exact Hsorted|]. split; [exact Hlast|].
  exact (monotonic_drain_complete tasks ticks 20 Hsorted Hlast).
Defined.

Lemma getCallbacks_nothing_due_witness :
  let s : TickScheduler nat := schedule 15 4%nat (schedule 12 3%nat TickScheduler_new) in
  Forall (λ task, 10 < task.1) (stored s) ∧
  ((getCallbacks 10 s).1 = [] ∧ stored (getCallbacks 10 s).2 ≡ₚ stored s) ∧
  ((getCallbacks 0 (TickScheduler_new (Callback:=nat))).1 = [] ∧
   stored (getCallbacks 0 (TickScheduler_new (Callback:=nat))).2 = []).
Proof.
  intros s.
  assert (Forall (λ task, 10 < task.1) (stored s)) as Hnone.
  { vm_compute. repeat constructor. }
  split; [exact Hnone|]. exact (getCallbacks_nothing_due 10 s Hnone).
Defined.


(** Builds a run of the system on a concrete scheduler, event by event. *)
Ltac run_events :=
  repeat first
    [ apply exec_done
    | eapply exec_step;
      [ first
          [ apply step_schedule
          | apply step_call
          | apply step_dequeue_due; [reflexivity | simpl; lia]
          | apply step_dequeue_later; [reflexivity | simpl; lia]
          | apply step_loop_exit; left; reflexivity
          | apply step_reinsert
          | apply step_return ]
      | ] ].



End Witnesses.

Module NativesPlayersWitness.
Import NativesPlayers.

(** An iterator is the list of the slots still to visit; a script context
    is the list of its arguments, absent ones reading as null. *)
Lemma null_iterator_tolerated_witness :
  let HasNext := λ it : list Z, bool_decide (it ≠ []) in
  let GetCurrentSlot := λ it : list Z, default (-1) (head it) in
  let MoveNext := λ it : list Z, tail it in
  let GetArgument := λ (ctx : list pointer) (i : nat), default nullptr (ctx !! i) in
  let script_context := [nullptr] in
  let h : Heap := {[ 8%N := [0; 3] ]} in
  GetArgument script_context 0%nat = nullptr ∧
  IteratorHasNext HasNext GetArgument script_context h = Some false ∧
  IteratorGetCurrentSlot GetCurrentSlot GetArgument script_context h = Some (-1) ∧
  IteratorMoveNext MoveNext GetArgument script_context h = Some h ∧
  DestroyIterator GetArgument script_context h = Some h.
Proof.
  intros HasNext GetCurrentSlot MoveNext GetArgument script_context h.
  assert (GetArgument script_context 0%nat = nullptr) as Hnull by reflexivity.
  split; [exact Hnull|].
  exact (NativesPlayersFacts.null_iterator_tolerated HasNext GetCurrentSlot MoveNext
           GetArgument script_context h Hnull).
Defined.

End NativesPlayersWitness.

(* ===================================================================== *)
(** * Part III: further properties of the scheduler and of the natives *)
(* ===================================================================== *)

(** ** How [schedule] and [getCallbacks] compose *)

Section SchedulerLaws.
Context {Callback : Type} {Q : Queue (Task Callback)}.
Implicit Types (s : TickScheduler Callback) (calls : list (Call Callback)).
Implicit Types (T tick : Z) (task : Task Callback) (l : list (Task Callback)).

Lemma filter_due_two T1 T2 l :
  T1 ≤ T2 →
  filter (λ task, task.1 ≤ T2) l ≡ₚ
  filter (λ task, task.1 ≤ T1) l ++
  filter (λ task, task.1 ≤ T2) (filter (λ task, T1 < task.1) l).
Proof.
  intros Hle. induction l as [|task l IH]; [done|].
  destruct (decide (task.1 ≤ T1)) as [H1|H1].
  - rewrite (filter_cons_True (λ task, task.1 ≤ T2)) by lia.
    rewrite (filter_cons_True (λ task, task.1 ≤ T1)) by done.
    rewrite (filter_cons_False (λ task, T1 < task.1)) by lia.
    simpl. by rewrite IH.
  - rewrite (filter_cons_False (λ task, task.1 ≤ T1)) by done.
    rewrite (filter_cons_True (λ task, T1 < task.1)) by lia.
    destruct (decide (task.1 ≤ T2)) as [H2|H2].
    + rewrite !(filter_cons_True (λ task, task.1 ≤ T2)) by done.
      rewrite <- Permutation_middle. by rewrite IH.
    + by rewrite !(filter_cons_False (λ task, task.1 ≤ T2)) by done.
Qed.

Lemma stored_run_subset calls s task :
  task ∈ stored (run calls s).2 → task ∈ stored s ++ scheduled calls.
Proof.
  revert s. induction calls as [|[tick callback|T] calls IH]; intros s; simpl.
  - by rewrite app_nil_r.
  - intros Hin%IH. rewrite stored_schedule in Hin.
    rewrite <- app_assoc in Hin. done.
  - destruct (getCallbacks_spec T s) as [_ H2].
    destruct (getCallbacks T s) as [out s']. cbn [snd] in H2.
    specialize (IH s'). destruct (run calls s') as [outs s'']. cbn [snd] in *.
    intros Hin%IH. apply elem_of_app in Hin as [Hin|Hin]; apply elem_of_app.
    + left. rewrite H2 in Hin. by apply list_elem_of_filter in Hin as [_ ?].
    + by right.
Qed.

(** X1.  Over any sequence of calls nothing is created and nothing is lost:
    the callbacks returned so far together with those still stored are, as
    a multiset, the callbacks stored at the start together with those
    scheduled since; so every scheduled callback has been returned or is
    still stored. *)
Theorem callbacks_conserved calls s :
  concat (run calls s).1 ++ (stored (run calls s).2).*2
    ≡ₚ (stored s).*2 ++ (scheduled calls).*2 ∧
  ∀ task, task ∈ scheduled calls →
    task.2 ∈ concat (run calls s).1 ∨ task.2 ∈ (stored (run calls s).2).*2.
Proof.
  pose proof (run_conserves calls s) as Hc. split; [done|].
  intros task Hin. apply elem_of_app. rewrite Hc.
  apply elem_of_app. right. apply list_elem_of_fmap. eauto.
Qed.

(** X2.  Draining again at the same or an earlier tick returns nothing and
    leaves the stored tasks as they are. *)
Theorem getCallbacks_again_returns_nothing T T' s :
  T' ≤ T →
  (getCallbacks T' (getCallbacks T s).2).1 = [] ∧
  stored (getCallbacks T' (getCallbacks T s).2).2
    ≡ₚ stored (getCallbacks T s).2.
Proof.
  intros Hle. destruct (getCallbacks_spec T s) as [_ H2].
  assert (Forall (λ task, T' < task.1) (stored (getCallbacks T s).2)) as Hall.
  { rewrite H2. apply Forall_forall. intros task Hin.
    apply list_elem_of_filter in Hin as [? _]. lia. }
  destruct (getCallbacks_spec T' (getCallbacks T s).2) as [H1' H2'].
  destruct (filter_all_later T' _ Hall) as [Hdue Hlater].
  rewrite Hdue in H1'. rewrite Hlater in H2'.
  split; [by apply Permutation_nil_r|done].
Qed.

(** X3.  Draining at [T1] and then at a later [T2] returns, taken together,
    the same callbacks as draining once at [T2], and leaves the same stored
    tasks. *)
Theorem getCallbacks_two_steps T1 T2 s :
  T1 ≤ T2 →
  (getCallbacks T1 s).1 ++ (getCallbacks T2 (getCallbacks T1 s).2).1
    ≡ₚ (getCallbacks T2 s).1 ∧
  stored (getCallbacks T2 (getCallbacks T1 s).2).2
    ≡ₚ stored (getCallbacks T2 s).2.
Proof.
  intros Hle.
  destruct (getCallbacks_spec T1 s) as [H11 H12].
  destruct (getCallbacks_spec T2 (getCallbacks T1 s).2) as [H21 H22].
  destruct (getCallbacks_spec T2 s) as [H1 H2].
  split.
  - rewrite H11, H21, H12, H1, <- fmap_app. by rewrite <- filter_due_two.
  - rewrite H22, H12, H2. rewrite list_filter_filter_l; [done|].
    intros task ?. lia.
Qed.

(** X5.  No callback is returned early: in any scheduler reached by a
    sequence of calls, every callback that [getCallbacks T] returns belongs
    to a task that was stored at the start or scheduled since and whose
    tick is at most [T]. *)
Theorem getCallbacks_never_early calls s T callback :
  callback ∈ (getCallbacks T (run calls s).2).1 →
  ∃ task, task ∈ stored s ++ scheduled calls ∧
    task.2 = callback ∧ task.1 ≤ T.
Proof.
  destruct (getCallbacks_spec T (run calls s).2) as [-> _].
  intros (task & Heq & [Hdue Hin]%list_elem_of_filter)%list_elem_of_fmap.
  exists task. split; [by apply stored_run_subset|done].
Qed.

(** X6.  The due test is inclusive: a task scheduled alone for tick [T] is
    returned by a drain at [T], which empties the store, and is kept by a
    drain at any earlier tick, which returns nothing. *)
Theorem getCallbacks_boundary T T' callback :
  T' < T →
  (getCallbacks T (schedule T callback TickScheduler_new)).1 = [callback] ∧
  stored (getCallbacks T (schedule T callback TickScheduler_new)).2 = [] ∧
  (getCallbacks T' (schedule T callback TickScheduler_new)).1 = [] ∧
  stored (getCallbacks T' (schedule T callback TickScheduler_new)).2
    = [(T, callback)].
Proof.
  intros Hlt.
  assert (stored (schedule T callback TickScheduler_new) = [(T, callback)]) as Hs.
  { apply Permutation_singleton_r. by rewrite stored_schedule, stored_new. }
  destruct (getCallbacks_spec T (schedule T callback TickScheduler_new)) as [H1 H2].
  destruct (getCallbacks_spec T' (schedule T callback TickScheduler_new)) as [H1' H2'].
  rewrite Hs in H1, H2, H1', H2'.
  rewrite filter_cons_True in H1 by (simpl; lia).
  rewrite filter_cons_False in H2 by (simpl; lia).
  rewrite filter_cons_False in H1' by (simpl; lia).
  rewrite filter_cons_True in H2' by (simpl; lia).
  rewrite filter_nil in *.
  split; [by apply Permutation_singleton_r|].
  split; [by apply Permutation_nil_r|].
  split; [by apply Permutation_nil_r|by apply Permutation_singleton_r].
Qed.

(** X7.  Scheduling a task for a tick after [T] commutes with a drain at
    [T]: scheduled before or after the drain, the drain returns the same
    callbacks and the store ends up with the same tasks. *)
Theorem schedule_later_commutes T tick callback s :
  T < tick →
  (getCallbacks T (schedule tick callback s)).1 ≡ₚ (getCallbacks T s).1 ∧
  stored (getCallbacks T (schedule tick callback s)).2
    ≡ₚ stored (schedule tick callback (getCallbacks T s).2).
Proof.
  intros Hlater.
  destruct (getCallbacks_spec T (schedule tick callback s)) as [H1 H2].
  destruct (getCallbacks_spec T s) as [H1' H2'].
  rewrite H1, H2, H1', !stored_schedule, H2', !filter_app.
  rewrite filter_cons_False by (simpl; lia).
  rewrite filter_cons_True by (simpl; lia).
  rewrite !filter_nil. by rewrite app_nil_r.
Qed.

(** X8.  Scheduling a task for a tick that [T] has reached adds exactly its
    callback to what the next drain at [T] returns, and nothing to what the
    drain leaves in the store. *)
Theorem schedule_due_adds_one T tick callback s :
  tick ≤ T →
  (getCallbacks T (schedule tick callback s)).1
    ≡ₚ (getCallbacks T s).1 ++ [callback] ∧
  stored (getCallbacks T (schedule tick callback s)).2
    ≡ₚ stored (getCallbacks T s).2.
Proof.
  intros Hdue.
  destruct (getCallbacks_spec T (schedule tick callback s)) as [H1 H2].
  destruct (getCallbacks_spec T s) as [H1' H2'].
  rewrite H1, H2, H1', H2', !stored_schedule, !filter_app.
  rewrite filter_cons_True by (simpl; lia).
  rewrite filter_cons_False by (simpl; lia).
  rewrite !filter_nil. by rewrite fmap_app, app_nil_r.
Qed.

Lemma filter_all_due T l :
  Forall (λ task, task.1 ≤ T) l →
  filter (λ task, task.1 ≤ T) l = l ∧ filter (λ task, T < task.1) l = [].
Proof.
  induction 1 as [|task l Hdue _ [IH1 IH2]]; [done|].
  rewrite filter_cons_True by done. rewrite filter_cons_False by lia.
  by rewrite IH1, IH2.
Qed.

(** X9.  Once the tick has reached every task stored at the start or
    scheduled since, a drain empties the store, and together with the
    results of the earlier drains it has returned every callback, each as
    often as it was handed in. *)
Theorem final_drain_returns_all calls s T :
  Forall (λ task, task.1 ≤ T) (stored s ++ scheduled calls) →
  stored (getCallbacks T (run calls s).2).2 = [] ∧
  concat (run calls s).1 ++ (getCallbacks T (run calls s).2).1
    ≡ₚ (stored s).*2 ++ (scheduled calls).*2.
Proof.
  intros Hall.
  assert (Forall (λ task, task.1 ≤ T) (stored (run calls s).2)) as Hst.
  { apply Forall_forall. intros task Hin%stored_run_subset.
    rewrite Forall_forall in Hall. by apply Hall. }
  destruct (getCallbacks_spec T (run calls s).2) as [H1 H2].
  destruct (filter_all_due T _ Hst) as [Hdue Hlater].
  rewrite Hdue in H1. rewrite Hlater in H2.
  split; [by apply Permutation_nil_r|].
  rewrite H1. apply run_conserves.
Qed.

End SchedulerLaws.

(** ** Independence of the queue *)

Section QueueIndependence.
Context {Callback : Type} {Q1 Q2 : Queue (Task Callback)}.

(** X4.  What a drain returns and what it keeps depend only on the multiset
    of stored tasks: two schedulers holding the same tasks, over whatever
    queues and in whatever internal order, return the same callbacks and
    keep the same tasks, up to order. *)
Theorem getCallbacks_depends_on_multiset T
    (s1 : TickScheduler Callback (Q:=Q1))
    (s2 : TickScheduler Callback (Q:=Q2)) :
  stored s1 ≡ₚ stored s2 →
  (getCallbacks T s1).1 ≡ₚ (getCallbacks T s2).1 ∧
  stored (getCallbacks T s1).2 ≡ₚ stored (getCallbacks T s2).2.
Proof.
  intros Hsame.
  destruct (getCallbacks_spec T s1) as [-> ->].
  destruct (getCallbacks_spec T s2) as [-> ->].
  by rewrite Hsame.
Qed.

End QueueIndependence.

(** ** The life of an iterator handle *)

Module NativesPlayersLaws.
Import NativesPlayers.

Section Handles.
Context {ConnectedPlayerIterator ScriptContext : Type}.
Variable HasNext : ConnectedPlayerIterator → bool.
Variable GetCurrentSlot : ConnectedPlayerIterator → Z.
Variable MoveNext : ConnectedPlayerIterator → ConnectedPlayerIterator.
Variable GetArgument : ScriptContext → nat → pointer.
Variable GetConnectedPlayersIterator : ConnectedPlayerIterator.
Implicit Types (script_context : ScriptContext).
Implicit Types (h : gmap N ConnectedPlayerIterator) (p : N).
Implicit Types (it : ConnectedPlayerIterator).

Lemma deref_live h p it : p ≠ nullptr → h !! p = Some it → deref h p = Some it.
Proof. intros Hp Hl. unfold deref. by rewrite decide_False. Qed.

Lemma deref_dead h p : h !! p = None → deref h p = None.
Proof. intros Hl. unfold deref. by case_decide. Qed.

Lemma create_fresh script_context h :
  let p := (CreateConnectedPlayersIterator GetConnectedPlayersIterator
              script_context h).1 in
  p ≠ nullptr ∧ h !! p = None.
Proof.
  unfold CreateConnectedPlayersIterator. cbn [fst].
  pose proof (is_fresh ({[nullptr]} ∪ dom h : gset N)) as Hfresh.
  apply not_elem_of_union in Hfresh as [Hnull Hdom]. split.
  - intros Heq. apply Hnull. by apply elem_of_singleton.
  - by apply (not_elem_of_dom_1 (M:=gmap N)).
Qed.

Lemma create_heap script_context h :
  (CreateConnectedPlayersIterator GetConnectedPlayersIterator script_context h).2
  = <[(CreateConnectedPlayersIterator GetConnectedPlayersIterator
         script_context h).1 := GetConnectedPlayersIterator]> h.
Proof. reflexivity. Qed.

(** X10.  [CreateConnectedPlayersIterator] returns a handle that is not
    null and was not live before; it leaves every other handle as it was;
    and the accessors called with the new handle read the iterator obtained
    from the player manager. *)
Theorem create_gives_live_handle script_context script_context' h :
  let r := CreateConnectedPlayersIterator GetConnectedPlayersIterator
             script_context h in
  GetArgument script_context' 0%nat = r.1 →
  r.1 ≠ nullptr ∧ h !! r.1 = None ∧
  (∀ p, p ≠ r.1 → r.2 !! p = h !! p) ∧
  IteratorHasNext HasNext GetArgument script_context' r.2
    = Some (HasNext GetConnectedPlayersIterator) ∧
  IteratorGetCurrentSlot GetCurrentSlot GetArgument script_context' r.2
    = Some (GetCurrentSlot GetConnectedPlayersIterator).
Proof.
  intros r Harg. subst r.
  destruct (create_fresh script_context h) as [Hp Hnew].
  rewrite create_heap.
  set (p := (CreateConnectedPlayersIterator GetConnectedPlayersIterator
               script_context h).1) in *.
  assert (deref (<[p:=GetConnectedPlayersIterator]> h) p
          = Some GetConnectedPlayersIterator) as Hd.
  { apply deref_live; [done|]. apply (lookup_insert_eq (M:=gmap N)). }
  split; [done|]. split; [done|]. split.
  { intros p' Hne. by apply (lookup_insert_ne (M:=gmap N)). }
  unfold IteratorHasNext, IteratorGetCurrentSlot. rewrite Harg.
  rewrite !decide_False by done. by rewrite Hd.
Qed.

(** X11.  Destroying a handle right after creating it gives back the heap
    as it was before the creation. *)
Theorem create_then_destroy script_context script_context' h :
  let r := CreateConnectedPlayersIterator GetConnectedPlayersIterator
             script_context h in
  GetArgument script_context' 0%nat = r.1 →
  DestroyIterator GetArgument script_context' r.2 = Some h.
Proof.
  intros r Harg. subst r.
  destruct (create_fresh script_context h) as [Hp Hnew].
  rewrite create_heap.
  set (p := (CreateConnectedPlayersIterator GetConnectedPlayersIterator
               script_context h).1) in *.
  unfold DestroyIterator. rewrite Harg. rewrite decide_True by done.
  rewrite (deref_live _ _ GetConnectedPlayersIterator);
    [|done|apply (lookup_insert_eq (M:=gmap N))].
  simpl. f_equal.
  transitivity (delete p h).
  - apply (delete_insert_eq (M:=gmap N)).
  - by apply (delete_id (M:=gmap N)).
Qed.

(** X12.  [IteratorMoveNext] called with a live handle advances the
    iterator behind that handle and nothing else: every other handle keeps
    its iterator, no handle appears or disappears, and the accessors then
    read the advanced iterator. *)
Theorem move_next_advances_only_its_iterator script_context h p it :
  GetArgument script_context 0%nat = p → p ≠ nullptr → h !! p = Some it →
  ∃ h', IteratorMoveNext MoveNext GetArgument script_context h = Some h' ∧
    h' !! p = Some (MoveNext it) ∧
    (∀ p', p' ≠ p → h' !! p' = h !! p') ∧
    dom h' = dom h ∧
    IteratorHasNext HasNext GetArgument script_context h'
      = Some (HasNext (MoveNext it)) ∧
    IteratorGetCurrentSlot GetCurrentSlot GetArgument script_context h'
      = Some (GetCurrentSlot (MoveNext it)).
Proof.
  intros Harg Hp Hlive. exists (<[p := MoveNext it]> h).
  assert ((<[p := MoveNext it]> h) !! p = Some (MoveNext it)) as Hnew
    by apply (lookup_insert_eq (M:=gmap N)).
  unfold IteratorMoveNext, IteratorHasNext, IteratorGetCurrentSlot.
  rewrite Harg. rewrite decide_True by done. rewrite !decide_False by done.
  rewrite (deref_live h p it) by done.
  rewrite (deref_live _ p (MoveNext it)) by done.
  split; [done|]. split; [done|]. split.
  { intros p' Hne. by apply (lookup_insert_ne (M:=gmap N)). }
  split; [|done].
  apply (dom_insert_lookup_L (M:=gmap N)). by exists it.
Qed.

(** X13.  The natives guard against the null handle only.  Once
    [DestroyIterator] has deleted the iterator of a live handle, that
    handle is dangling: every other handle keeps its iterator, and calling
    any of the four natives with the deleted handle again, a second
    [DestroyIterator] included, is undefined. *)
Theorem destroyed_handle_is_dangling script_context h p it :
  GetArgument script_context 0%nat = p → p ≠ nullptr → h !! p = Some it →
  ∃ h', DestroyIterator GetArgument script_context h = Some h' ∧
    h' !! p = None ∧
    (∀ p', p' ≠ p → h' !! p' = h !! p') ∧
    IteratorHasNext HasNext GetArgument script_context h' = None ∧
    IteratorGetCurrentSlot GetCurrentSlot GetArgument script_context h' = None ∧
    IteratorMoveNext MoveNext GetArgument script_context h' = None ∧
    DestroyIterator GetArgument script_context h' = None.
Proof.
  intros Harg Hp Hlive. exists (delete p h).
  assert (delete p h !! p = None) as Hgone
    by apply (lookup_delete_eq (M:=gmap N)).
  unfold DestroyIterator, IteratorMoveNext, IteratorHasNext,
    IteratorGetCurrentSlot.
  rewrite Harg. rewrite !decide_True by done. rewrite !decide_False by done.
  rewrite (deref_live h p it) by done.
  rewrite (deref_dead (delete p h) p) by done.
  split; [done|]. split; [done|]. split.
  { intros p' Hne. by apply (lookup_delete_ne (M:=gmap N)). }
  repeat split; try done; by case_decide.
Qed.

End Handles.

End NativesPlayersLaws.

(** ** The further properties at concrete inputs *)

Section MoreWitnesses.
#[local] Existing Instance fifo.

Lemma callbacks_conserved_witness :
  let calls := [Schedule 7 5%nat; CollectDue 10; Schedule 30 6%nat;
                CollectDue 12] in
  (7, 5%nat) ∈ scheduled calls ∧
  ((7, 5%nat).2 ∈ concat (run calls four_tasks).1 ∨
   (7, 5%nat).2 ∈ (stored (run calls four_tasks).2).*2).
Proof.
  intros calls.
  assert ((7, 5%nat) ∈ scheduled calls) as Hin.
  { apply (bool_decide_unpack _). vm_compute. exact I. }
  split; [exact Hin|].
  exact (proj2 (callbacks_conserved calls four_tasks) (7, 5%nat) Hin).
Defined.

Lemma getCallbacks_again_returns_nothing_witness :
  7 ≤ 10 ∧
  (getCallbacks 7 (getCallbacks 10 four_tasks).2).1 = [] ∧
  stored (getCallbacks 7 (getCallbacks 10 four_tasks).2).2
    ≡ₚ stored (getCallbacks 10 four_tasks).2.
Proof.
  assert (7 ≤ 10) as Hle by lia.
  split; [exact Hle|].
  exact (getCallbacks_again_returns_nothing 10 7 four_tasks Hle).
Defined.

Lemma getCallbacks_two_steps_witness :
  5 ≤ 12 ∧
  (getCallbacks 5 four_tasks).1 ++
    (getCallbacks 12 (getCallbacks 5 four_tasks).2).1
    ≡ₚ (getCallbacks 12 four_tasks).1 ∧
  stored (getCallbacks 12 (getCallbacks 5 four_tasks).2).2
    ≡ₚ stored (getCallbacks 12 four_tasks).2.
Proof.
  assert (5 ≤ 12) as Hle by lia.
  split; [exact Hle|].
  exact (getCallbacks_two_steps 5 12 four_tasks Hle).
Defined.

Lemma getCallbacks_depends_on_multiset_witness :
  stored four_tasks ≡ₚ stored four_tasks_lifo ∧
  (getCallbacks 10 four_tasks).1 ≡ₚ (getCallbacks 10 four_tasks_lifo).1 ∧
  stored (getCallbacks 10 four_tasks).2
    ≡ₚ stored (getCallbacks 10 four_tasks_lifo).2.
Proof.
  assert (stored four_tasks ≡ₚ stored four_tasks_lifo) as Hsame.
  { apply (bool_decide_unpack _). vm_compute. exact I. }
  split; [exact Hsame|].
  exact (getCallbacks_depends_on_multiset 10 four_tasks four_tasks_lifo Hsame).
Defined.

Lemma getCallbacks_never_early_witness :
  let calls := [Schedule 7 5%nat; CollectDue 6; Schedule 30 6%nat] in
  5%nat ∈ (getCallbacks 10 (run calls four_tasks).2).1 ∧
  ∃ task, task ∈ stored four_tasks ++ scheduled calls ∧
    task.2 = 5%nat ∧ task.1 ≤ 10.
Proof.
  intros calls.
  assert (5%nat ∈ (getCallbacks 10 (run calls four_tasks).2).1) as Hin.
  { apply (bool_decide_unpack _). vm_compute. exact I. }
  split; [exact Hin|].
  exact (getCallbacks_never_early calls four_tasks 10 5%nat Hin).
Defined.

Lemma getCallbacks_boundary_witness :
  9 < 10 ∧
  (getCallbacks 10 (schedule 10 1%nat TickScheduler_new)).1 = [1%nat] ∧
  stored (getCallbacks 10 (schedule 10 1%nat TickScheduler_new)).2 = [] ∧
  (getCallbacks 9 (schedule 10 1%nat TickScheduler_new)).1 = [] ∧
  stored (getCallbacks 9 (schedule 10 1%nat TickScheduler_new)).2
    = [(10, 1%nat)].
Proof.
  assert (9 < 10) as Hlt by lia.
  split; [exact Hlt|].
  exact (getCallbacks_boundary 10 9 1%nat Hlt).
Defined.

Lemma schedule_later_commutes_witness :
  10 < 20 ∧
  (getCallbacks 10 (schedule 20 9%nat four_tasks)).1
    ≡ₚ (getCallbacks 10 four_tasks).1 ∧
  stored (getCallbacks 10 (schedule 20 9%nat four_tasks)).2
    ≡ₚ stored (schedule 20 9%nat (getCallbacks 10 four_tasks).2).
Proof.
  assert (10 < 20) as Hlater by lia.
  split; [exact Hlater|].
  exact (schedule_later_commutes 10 20 9%nat four_tasks Hlater).
Defined.

Lemma schedule_due_adds_one_witness :
  3 ≤ 10 ∧
  (getCallbacks 10 (schedule 3 9%nat four_tasks)).1
    ≡ₚ (getCallbacks 10 four_tasks).1 ++ [9%nat] ∧
  stored (getCallbacks 10 (schedule 3 9%nat four_tasks)).2
    ≡ₚ stored (getCallbacks 10 four_tasks).2.
Proof.
  assert (3 ≤ 10) as Hdue by lia.
  split; [exact Hdue|].
  exact (schedule_due_adds_one 10 3 9%nat four_tasks Hdue).
Defined.

Lemma final_drain_returns_all_witness :
  let calls := [Schedule 7 5%nat; CollectDue 10; Schedule 30 6%nat;
                CollectDue 12] in
  Forall (λ task, task.1 ≤ 30) (stored four_tasks ++ scheduled calls) ∧
  stored (getCallbacks 30 (run calls four_tasks).2).2 = [] ∧
  concat (run calls four_tasks).1 ++
    (getCallbacks 30 (run calls four_tasks).2).1
    ≡ₚ (stored four_tasks).*2 ++ (scheduled calls).*2.
Proof.
  intros calls.
  assert (Forall (λ task, task.1 ≤ 30)
            (stored four_tasks ++ scheduled calls)) as Hall.
  { apply (bool_decide_unpack _). vm_compute. exact I. }
  split; [exact Hall|].
  exact (final_drain_returns_all calls four_tasks 30 Hall).
Defined.

End MoreWitnesses.

Module NativesPlayersLawsWitness.
Import NativesPlayers SlotIterator.

Lemma create_gives_live_handle_witness :
  let h : gmap N (list Z) := {[ 1%N := [4] ]} in
  let r := CreateConnectedPlayersIterator [0; 3] ([] : list pointer) h in
  list_GetArgument [r.1] 0%nat = r.1 ∧
  r.1 ≠ nullptr ∧ h !! r.1 = None ∧
  (∀ p, p ≠ r.1 → r.2 !! p = h !! p) ∧
  IteratorHasNext slots_HasNext list_GetArgument [r.1] r.2
    = Some (slots_HasNext [0; 3]) ∧
  IteratorGetCurrentSlot slots_GetCurrentSlot list_GetArgument [r.1] r.2
    = Some (slots_GetCurrentSlot [0; 3]).
Proof.
  intros h r.
  assert (list_GetArgument [r.1] 0%nat = r.1) as Harg by reflexivity.
  split; [exact Harg|].
  exact (NativesPlayersLaws.create_gives_live_handle slots_HasNext
           slots_GetCurrentSlot list_GetArgument [0; 3] [] [r.1] h Harg).
Defined.

Lemma create_then_destroy_witness :
  let h : gmap N (list Z) := {[ 1%N := [4] ]} in
  let r := CreateConnectedPlayersIterator [0; 3] ([] : list pointer) h in
  list_GetArgument [r.1] 0%nat = r.1 ∧
  DestroyIterator list_GetArgument [r.1] r.2 = Some h.
Proof.
  intros h r.
  assert (list_GetArgument [r.1] 0%nat = r.1) as Harg by reflexivity.
  split; [exact Harg|].
  exact (NativesPlayersLaws.create_then_destroy list_GetArgument [0; 3]
           [] [r.1] h Harg).
Defined.

Lemma move_next_advances_only_its_iterator_witness :
  let h : gmap N (list Z) := {[ 8%N := [0; 3] ]} in
  list_GetArgument [8%N] 0%nat = 8%N ∧ 8%N ≠ nullptr ∧
  h !! 8%N = Some [0; 3] ∧
  ∃ h', IteratorMoveNext slots_MoveNext list_GetArgument [8%N] h = Some h' ∧
    h' !! 8%N = Some (slots_MoveNext [0; 3]) ∧
    (∀ p', p' ≠ 8%N → h' !! p' = h !! p') ∧
    dom h' = dom h ∧
    IteratorHasNext slots_HasNext list_GetArgument [8%N] h'
      = Some (slots_HasNext (slots_MoveNext [0; 3])) ∧
    IteratorGetCurrentSlot slots_GetCurrentSlot list_GetArgument [8%N] h'
      = Some (slots_GetCurrentSlot (slots_MoveNext [0; 3])).
Proof.
  intros h.
  assert (list_GetArgument [8%N] 0%nat = 8%N) as Harg by reflexivity.
  assert (8%N ≠ nullptr) as Hp by discriminate.
  assert (h !! 8%N = Some [0; 3]) as Hlive by reflexivity.
  split; [exact Harg|]. split; [exact Hp|]. split; [exact Hlive|].
  exact (NativesPlayersLaws.move_next_advances_only_its_iterator
           slots_HasNext slots_GetCurrentSlot slots_MoveNext list_GetArgument
           [8%N] h 8%N [0; 3] Harg Hp Hlive).
Defined.

Lemma destroyed_handle_is_dangling_witness :
  let h : gmap N (list Z) := {[ 8%N := [0; 3] ]} in
  list_GetArgument [8%N] 0%nat = 8%N ∧ 8%N ≠ nullptr ∧
  h !! 8%N = Some [0; 3] ∧
  ∃ h', DestroyIterator list_GetArgument [8%N] h = Some h' ∧
    h' !! 8%N = None ∧
    (∀ p', p' ≠ 8%N → h' !! p' = h !! p') ∧
    IteratorHasNext slots_HasNext list_GetArgument [8%N] h' = None ∧
    IteratorGetCurrentSlot slots_GetCurrentSlot list_GetArgument [8%N] h'
      = None ∧
    IteratorMoveNext slots_MoveNext list_GetArgument [8%N] h' = None ∧
    DestroyIterator list_GetArgument [8%N] h' = None.
Proof.
  intros h.
  assert (list_GetArgument [8%N] 0%nat = 8%N) as Harg by reflexivity.
  assert (8%N ≠ nullptr) as Hp by discriminate.
  assert (h !! 8%N = Some [0; 3]) as Hlive by reflexivity.
  split; [exact Harg|]. split; [exact Hp|]. split; [exact Hlive|].
  exact (NativesPlayersLaws.destroyed_handle_is_dangling
           slots_HasNext slots_GetCurrentSlot slots_MoveNext list_GetArgument
           [8%N] h 8%N [0; 3] Harg Hp Hlive).
Defined.

End NativesPlayersLawsWitness.
